(** * pyani.run_sge: scheduling a job dependency graph on Grid Engine

    A shallow embedding of [src/pyani/run_sge.py] and the properties its
    specification states about it.

    Python objects are shared and mutable, so jobs live in an object store
    ([gmap jobid Job]) and are referred to by identity; a job's dependency
    list holds identities, and flags such as [submitted] are read through
    the store at the moment of the read.  Python [set]s of jobs are [gset]s
    of identities (the default hash of an object is its identity). *)

From Stdlib Require Import Ascii.
From stdpp Require Import gmap strings list pretty relations.

Set Warnings "-clear-no-such-hyp".

(** ** Outcomes of a call *)

(** The exceptions that matter for the functions below.
    [CyclicDependencyError] is the error the specification names for the
    resolver; it is listed so that statements about it can be written. *)
Inductive exn : Type :=
  | RecursionError
  | AttributeError
  | ValueError
  | TypeError
  | FileNotFoundError
  | CyclicDependencyError.

(** A call returns a value, raises, or (for a [while] loop that has used up
    the iterations it was given) has not finished. *)
Inductive outcome (A : Type) : Type :=
  | Returned (a : A)
  | Raised (e : exn)
  | Unfinished.

Arguments Returned {A} a.
Arguments Raised {A} e.
Arguments Unfinished {A}.

#[export] Instance outcome_bind : MBind outcome := λ A B k m,
  match m with
  | Returned a => k a
  | Raised e => Raised e
  | Unfinished => Unfinished
  end.

(** [for x in l: s = body(x, s)] with exceptions leaving the loop. *)
Fixpoint for_each {A S : Type} (body : A → S → outcome S) (l : list A) (s : S)
  : outcome S :=
  match l with
  | [] => Returned s
  | x :: l' => s' ← body x s; for_each body l' s'
  end.

(** ** Jobs *)

Definition jobid := nat.

(** Modelled from the spec: the classes [Job] and [JobGroup] come from
    [pyani_jobs], which is not among the sources.  The fields are the ones
    [run_sge.py] reads and writes; [tasks] is [Some n] exactly for a
    [JobGroup] with [n] tasks ([isinstance(job, JobGroup)]). *)
Record Job : Type := mkJob {
  name : string;
  command : string;
  index : string;
  script : string;
  dependencies : list jobid;
  submitted : bool;
  scriptpath : option string;
  out : option string;
  err : option string;
  tasks : option nat
}.

(** Modelled from the spec: the constructor call [Job(name, command, index)];
    a fresh job has its command as script, no dependencies, is not
    submitted, and is not a [JobGroup]. *)
Definition Job_init (nm cmd idx : string) : Job :=
  {| name := nm; command := cmd; index := idx; script := cmd;
     dependencies := []; submitted := false;
     scriptpath := None; out := None; err := None; tasks := None |}.

Definition isinstance_JobGroup (j : Job) : bool :=
  match tasks j with Some _ => true | None => false end.

#[export] Instance Job_inhabited : Inhabited Job := populate (Job_init "" "" "").

(** The object store.  [h !!! j] is the object a reference denotes; Python
    has no dangling references, and a reference outside the store reads as
    a job without dependencies. *)
Abbreviation heap := (gmap jobid Job).

Definition deps (h : heap) (j : jobid) : list jobid := dependencies (h !!! j).

(** [depends_on h a b]: job [a] lists job [b] among its dependencies. *)
Definition depends_on (h : heap) (a b : jobid) : Prop := b ∈ deps h a.

(** The jobs reachable from the roots along dependency edges. *)
Definition reachable (h : heap) (roots : list jobid) (j : jobid) : Prop :=
  ∃ r, r ∈ roots ∧ rtc (depends_on h) r j.

(** The collection [roots] is acyclic: no job reachable from it depends,
    directly or through others, on itself. *)
Definition acyclic_from (h : heap) (roots : list jobid) : Prop :=
  ∀ j, reachable h roots j → ¬ tc (depends_on h) j j.

(** A cycle can be reached from [j]. *)
Definition reaches_cycle (h : heap) (j : jobid) : Prop :=
  ∃ c, rtc (depends_on h) j c ∧ tc (depends_on h) c c.

(** ** The resolver: [populate_jobset] and [build_joblist] *)

(** [limit] is the number of stack frames left: Python raises
    [RecursionError] when a call would exceed the recursion limit. *)
Fixpoint populate_jobset (limit : nat) (h : heap) (job : jobid)
    (jobset : gset jobid) (depth : nat) : outcome (gset jobid) :=
  match limit with
  | 0 => Raised RecursionError
  | S limit' =>
      let jobset := {[job]} ∪ jobset in
      if (length (deps h job) =? 0)%nat then Returned jobset
      else for_each (fun j s => populate_jobset limit' h j s (depth + 1))
                    (deps h job) jobset
  end.

Definition build_joblist (limit : nat) (h : heap) (jobgraph : list jobid)
  : outcome (list jobid) :=
  jobset ← for_each (fun job s => populate_jobset limit h job s 1) jobgraph ∅;
  Returned (elements jobset).

(** ** Strings *)

(** The line feed written ["\n"] in the source. *)
Definition nl : string := String (Ascii.ascii_of_nat 10) "".

(** [s[:-1]] *)
Fixpoint str_drop_last (s : string) : string :=
  match s with
  | "" => ""
  | String c "" => ""
  | String c s' => String c (str_drop_last s')
  end.

Fixpoint endswith_sep (s : string) : bool :=
  match s with
  | "" => false
  | String c "" => bool_decide (c = "/"%char)
  | String _ s' => endswith_sep s'
  end.

Definition startswith_sep (s : string) : bool :=
  match s with
  | String c _ => bool_decide (c = "/"%char)
  | "" => false
  end.

(** [os.path.join(a, b)] on a POSIX system. *)
Definition os_path_join (a b : string) : string :=
  if startswith_sep b then b
  else if bool_decide (a = "") || endswith_sep a then a +:+ b
  else a +:+ "/" +:+ b.

(** ["%s" % x] for an attribute that holds a string or [None]. *)
Definition str_of (x : option string) : string :=
  match x with Some s => s | None => "None" end.

(** ** The group compiler: [split_seq] and [compile_jobgroups_from_joblist] *)

(** [split_seq] takes [size] items at a time until a chunk comes out empty.
    Every chunk that is produced removes at least one item, so [length
    iterable] rounds are all the generator can yield; [rounds] counts them
    down. *)
Fixpoint split_seq_from {A : Type} (rounds : nat) (elm : list A) (size : nat)
  : list (list A) :=
  match rounds with
  | 0 => []
  | S rounds' =>
      match take size elm with
      | [] => []
      | item => item :: split_seq_from rounds' (drop size elm) size
      end
  end.

(** [sys.maxsize] of a 64-bit CPython: 2^63 - 1. *)
Definition sys_maxsize : Z := 9223372036854775807.

(** [itertools.islice] accepts a stop between 0 and [sys.maxsize] and
    refuses any other with [ValueError]. *)
Definition split_seq {A : Type} (iterable : list A) (size : Z)
  : outcome (list (list A)) :=
  if ((size <? 0) || (sys_maxsize <? size))%Z then Raised ValueError
  else Returned (split_seq_from (length iterable) iterable (Z.to_nat size)).

(** The inner loop [for jc in sublist: sge_jobcmds += jc + "\n"]. *)
Definition join_jobcmds (sublist : list string) : string :=
  foldl (fun sge_jobcmds jc => sge_jobcmds +:+ (jc +:+ nl)) "" sublist.

(** The outer loop; [count] is the counter before the first increment. *)
Fixpoint compile_sublists (jgprefix : string) (count : nat)
    (sublists : list (list string)) (jobgroups : list Job) : list Job :=
  match sublists with
  | [] => jobgroups
  | sublist :: rest =>
      let count := count + 1 in
      let sge_jobcmds := join_jobcmds sublist in
      compile_sublists jgprefix count rest
        (jobgroups ++ [Job_init (jgprefix +:+ "_" +:+ pretty count) sge_jobcmds "0"])
  end.

(** The jobs built here are new objects; they are returned as values and
    enter the store where the caller keeps them. *)
Definition compile_jobgroups_from_joblist (joblist : list string)
    (jgprefix : string) (sgegroupsize : Z) : outcome (list Job) :=
  sublists ← split_seq joblist sgegroupsize;
  Returned (compile_sublists jgprefix 0 sublists []).

(** The same code on entries of any type: [plus_nl jc] is what [jc + "\n"]
    evaluates to.  On commands, which are strings, it is the function
    above. *)
Definition join_jobcmds_with {A : Type} (plus_nl : A → outcome string)
    (sublist : list A) : outcome string :=
  for_each (fun jc sge_jobcmds => s ← plus_nl jc; Returned (sge_jobcmds +:+ s))
           sublist "".

Fixpoint compile_sublists_with {A : Type} (plus_nl : A → outcome string)
    (jgprefix : string) (count : nat) (sublists : list (list A))
    (jobgroups : list Job) : outcome (list Job) :=
  match sublists with
  | [] => Returned jobgroups
  | sublist :: rest =>
      let count := count + 1 in
      sge_jobcmds ← join_jobcmds_with plus_nl sublist;
      compile_sublists_with plus_nl jgprefix count rest
        (jobgroups ++ [Job_init (jgprefix +:+ "_" +:+ pretty count) sge_jobcmds "0"])
  end.

Definition compile_jobgroups_from_joblist_with {A : Type}
    (plus_nl : A → outcome string) (joblist : list A) (jgprefix : string)
    (sgegroupsize : Z) : outcome (list Job) :=
  sublists ← split_seq joblist sgegroupsize;
  compile_sublists_with plus_nl jgprefix 0 sublists [].

(** [jc + "\n"] for a string [jc]. *)
Definition str_plus_nl (jc : string) : outcome string := Returned (jc +:+ nl).

(** Modelled from the spec: [jc + "\n"] for a [Job] [jc].  The class comes
    from [pyani_jobs], which is not among the sources; the specification
    gives a job no addition, and Python raises [TypeError] for [+] on an
    object that does not define it. *)
Definition Job_plus_nl (jc : jobid) : outcome string := Raised TypeError.

(** ** The world the adapter acts on *)

Record World : Type := mkWorld {
  objects : heap;                  (* the job objects *)
  files : gmap string string;      (* path ↦ contents of the files written *)
  dirs : gset string;              (* directories that exist *)
  qsub_calls : list string;        (* command lines given to [os.system] *)
  log : list string                (* lines given to [logger.info] *)
}.

Definition set_objects (h : heap) (w : World) : World :=
  {| objects := h; files := files w; dirs := dirs w;
     qsub_calls := qsub_calls w; log := log w |}.

Definition write_file (path contents : string) (w : World) : World :=
  {| objects := objects w; files := <[path := contents]> (files w);
     dirs := dirs w; qsub_calls := qsub_calls w; log := log w |}.

(** [os.mkdir] and [os.makedirs(..., exist_ok=True)]; the errors of the
    file system are outside this model. *)
Definition mkdir (path : string) (w : World) : World :=
  {| objects := objects w; files := files w; dirs := {[path]} ∪ dirs w;
     qsub_calls := qsub_calls w; log := log w |}.

Definition logger_info (line : string) (w : World) : World :=
  {| objects := objects w; files := files w; dirs := dirs w;
     qsub_calls := qsub_calls w; log := log w ++ [line] |}.

Definition set_scriptpath (p : string) (j : Job) : Job :=
  {| name := name j; command := command j; index := index j;
     script := script j; dependencies := dependencies j;
     submitted := submitted j; scriptpath := Some p;
     out := out j; err := err j; tasks := tasks j |}.

Definition set_out_err (o e : string) (j : Job) : Job :=
  {| name := name j; command := command j; index := index j;
     script := script j; dependencies := dependencies j;
     submitted := submitted j; scriptpath := scriptpath j;
     out := Some o; err := Some e; tasks := tasks j |}.

Definition set_submitted (b : bool) (j : Job) : Job :=
  {| name := name j; command := command j; index := index j;
     script := script j; dependencies := dependencies j;
     submitted := b; scriptpath := scriptpath j;
     out := out j; err := err j; tasks := tasks j |}.

(** Attribute assignment [job.attr = v] on the object [job] denotes. *)
Definition update_job (f : Job → Job) (job : jobid) (h : heap) : heap :=
  <[job := f (h !!! job)]> h.

(** ** Directories and scripts *)

Definition build_directories (root_dir : string) (jobs : list jobid) (w : World)
  : World :=
  let w := mkdir root_dir w in
  let sge_dir := os_path_join root_dir "sge" in
  let w := mkdir sge_dir w in
  let jobdir := os_path_join sge_dir "jobs" in
  let stdout_dir := os_path_join sge_dir "stdout" in
  let stderr_dir := os_path_join sge_dir "stderr" in
  let w := mkdir stderr_dir (mkdir stdout_dir (mkdir jobdir w)) in
  foldl (fun w job =>
           let idx := index (objects w !!! job) in
           mkdir (os_path_join stderr_dir idx)
             (mkdir (os_path_join stdout_dir idx)
                (mkdir (os_path_join jobdir idx) w)))
        w jobs.

(** The text written for a job: ["#!/bin/sh\n#$ -S /bin/bash\n%s\n" % job.script]. *)
Definition script_text (j : Job) : string :=
  "#!/bin/sh" +:+ nl +:+ "#$ -S /bin/bash" +:+ nl +:+ script j +:+ nl.

Definition script_path_of (root_dir : string) (j : Job) : string :=
  let job_dir := os_path_join root_dir "sge/jobs" in
  let subjob_dir := os_path_join job_dir (index j) in
  os_path_join subjob_dir (name j).

(** The body of the loop of [build_job_scripts].  [open(scriptpath, "w")]
    creates the file in the directory [subjob_dir] the path leads into and
    raises [FileNotFoundError] when that directory does not exist; other
    refusals of the file system are not modelled. *)
Definition build_job_script (root_dir : string) (job : jobid) (w : World)
  : outcome World :=
  let j := objects w !!! job in
  let job_dir := os_path_join root_dir "sge/jobs" in
  let subjob_dir := os_path_join job_dir (index j) in
  let scriptpath := os_path_join subjob_dir (name j) in
  if bool_decide (subjob_dir ∈ dirs w) then
    let w := write_file scriptpath (script_text j) w in
    Returned (set_objects (update_job (set_scriptpath scriptpath) job (objects w)) w)
  else Raised FileNotFoundError.

Definition build_job_scripts (root_dir : string) (jobs : list jobid) (w : World)
  : outcome World :=
  for_each (build_job_script root_dir) jobs w.

(** ** Submission *)

(** [sum([(subjob.submitted is False) for subjob in job.dependencies])] *)
Definition unsatisfied (h : heap) (job : jobid) : nat :=
  sum_list ((fun subjob => if submitted (h !!! subjob) then 0 else 1) <$> deps h job).

Definition extract_submittable_jobs (h : heap) (waiting : list jobid)
  : list jobid :=
  elements
    (foldl (fun (submittable : gset jobid) job =>
              if (unsatisfied h job =? 0)%nat then {[job]} ∪ submittable
              else submittable)
           ∅ waiting).

Section Scheduler.

(** [pyani_config.QSUB_DEFAULT], the base command of a submission;
    [pyani_config] is not among the sources, so it is a parameter. *)
Variable QSUB_DEFAULT : string.

(** The exit status the operating system hands back for a command line,
    which may depend on everything that happened before. *)
Variable exit_status : World → string → Z.

Definition os_system (cmd : string) (w : World) : Z * World :=
  (exit_status w cmd,
   {| objects := objects w; files := files w; dirs := dirs w;
      qsub_calls := qsub_calls w ++ [cmd]; log := log w |}).

(** [args += "-hold_jid "], one [args += dep.name + ","] for each
    dependency, then [args = args[:-1]]. *)
Definition hold_jid (h : heap) (args : string) (dependencies : list jobid)
  : string :=
  str_drop_last
    (foldl (fun args dep => args +:+ (name (h !!! dep) +:+ ","))
           (args +:+ "-hold_jid ") dependencies).

(** The command line [submit_safe_jobs] builds for [job], read from a
    store in which [job.out] and [job.err] are already set. *)
Definition qsubcmd_of (h : heap) (job : jobid) (sgeargs : option string)
  : string :=
  let j := h !!! job in
  let args := " -N " +:+ name j +:+ " " in
  let args := args +:+ " -cwd " in
  let args := args +:+ (" -o " +:+ str_of (out j) +:+ " -e " +:+ str_of (err j) +:+ " ") in
  let args :=
    match tasks j with
    | Some n => args +:+ ("-t 1:" +:+ pretty n +:+ " ")
    | None => args
    end in
  let args :=
    if (0 <? length (dependencies j))%nat
    then hold_jid h args (dependencies j)
    else args in
  let qsubcmd := QSUB_DEFAULT +:+ " -V " +:+ args in
  match sgeargs with
  | Some extra => qsubcmd +:+ " " +:+ extra +:+ " " +:+ str_of (scriptpath j)
  | None => qsubcmd
  end.

(** The body of the loop of [submit_safe_jobs]. *)
Definition submit_safe_job (root_dir : string) (sgeargs : option string)
    (w : World) (job : jobid) : World :=
  let idx := index (objects w !!! job) in
  let o := os_path_join root_dir ("sge/stdout/" +:+ idx) in
  let e := os_path_join root_dir ("sge/stderr/" +:+ idx) in
  let w := set_objects (update_job (set_out_err o e) job (objects w)) w in
  let qsubcmd := qsubcmd_of (objects w) job sgeargs in
  let '(_, w) := os_system qsubcmd w in
  set_objects (update_job (set_submitted true) job (objects w)) w.

Definition submit_safe_jobs (root_dir : string) (jobs : list jobid)
    (sgeargs : option string) (w : World) : World :=
  foldl (submit_safe_job root_dir sgeargs) w jobs.

(** [waiting.remove(job)]: the first occurrence goes, [ValueError] if
    there is none. *)
Fixpoint list_remove (job : jobid) (waiting : list jobid)
  : outcome (list jobid) :=
  match waiting with
  | [] => Raised ValueError
  | x :: rest =>
      if decide (x = job) then Returned rest
      else rest' ← list_remove job rest; Returned (x :: rest')
  end.

(** The [while len(waiting) > 0] loop of [submit_jobs], given [rounds]
    iterations.  [waves] records the successive values of [submittable]. *)
Fixpoint submit_jobs_loop (rounds : nat) (root_dir : string)
    (sgeargs : option string) (waiting : list jobid) (w : World)
    (waves : list (list jobid)) : outcome (World * list (list jobid)) :=
  if (0 <? length waiting)%nat then
    match rounds with
    | 0 => Unfinished
    | S rounds' =>
        let submittable := extract_submittable_jobs (objects w) waiting in
        let w := submit_safe_jobs root_dir submittable sgeargs w in
        waiting ← for_each list_remove submittable waiting;
        submit_jobs_loop rounds' root_dir sgeargs waiting w
                         (waves ++ [submittable])
    end
  else Returned (w, waves).

Definition submit_jobs (rounds : nat) (root_dir : string)
    (jobs : list jobid) (sgeargs : option string) (w : World)
  : outcome (World * list (list jobid)) :=
  submit_jobs_loop rounds root_dir sgeargs jobs w [].

(** [jobs] is a list of jobs or ([inr]) a single job. *)
Definition build_and_submit_jobs (rounds : nat) (root_dir : string)
    (jobs : list jobid + jobid) (sgeargs : option string) (w : World)
  : outcome (World * list (list jobid)) :=
  let jobs := match jobs with inl l => l | inr j => [j] end in
  let w := build_directories root_dir jobs w in
  w ← build_job_scripts root_dir jobs w;
  submit_jobs rounds root_dir jobs sgeargs w.

(** *** [run_dependency_graph] *)

Inductive Logger : Type := logging_Logger.

(** [logger.info(line)]; on [None] the attribute lookup fails. *)
Definition info (logger : option Logger) (line : string) (w : World)
  : outcome World :=
  match logger with
  | Some _ => Returned (logger_info line w)
  | None => Raised AttributeError
  end.

Definition tab : string := String (Ascii.ascii_of_nat 9) "".

(** The new objects built by the group compiler are placed in the store
    at identities no object has yet. *)
Definition alloc_jobs (h : heap) (js : list Job) : heap * list jobid :=
  foldl (fun '(h, ids) j =>
           let i := fresh (dom h) in (<[i := j]> h, ids ++ [i]))
        (h, []) js.

(** The block under [if logger:], which reports the jobs and counts
    their dependencies. *)
Definition report_jobs (joblist : list jobid) (w : World) : nat * World :=
  foldl (fun '(dep_count, w) job =>
           let j := objects w !!! job in
           let w := logger_info (name j +:+ ": " +:+ command j) w in
           if (length (dependencies j) =? 0)%nat then (dep_count, w)
           else
             (dep_count + length (dependencies j),
              foldl (fun w dep =>
                       logger_info (tab +:+ "[^ depends on: " +:+
                                    name (objects w !!! dep) +:+ "]") w)
                    w (dependencies j)))
        (0, logger_info "Jobs to run with scheduler" w) joblist.

(** Modelled from the spec: [job.wait()] of [pyani_jobs], which is not among
    the sources: the call blocks until the scheduler reports the job
    complete and changes nothing that is recorded here. *)
Definition Job_wait (job : jobid) (w : World) : outcome World := Returned w.

(** The function returns nothing; the result here carries the joblist
    handed to [build_and_submit_jobs] and the waves of the submission.
    When no job has a dependency, the flattened list of [Job] objects
    itself is what the group compiler is called on. *)
Definition run_dependency_graph (limit rounds : nat) (jobdir : string)
    (jobgraph : list jobid) (logger : option Logger) (jgprefix : string)
    (sgegroupsize : Z) (sgeargs : option string) (w : World)
  : outcome (list jobid * World * list (list jobid)) :=
  joblist ← build_joblist limit (objects w) jobgraph;
  let '(dep_count, w) :=
    match logger with
    | Some _ => report_jobs joblist w
    | None => (0, w)
    end in
  w ← info logger ("There are " +:+ pretty dep_count +:+ " job dependencies") w;
  '(joblist, w) ←
    (if (dep_count =? 0)%nat then
       w ← info logger "Compiling jobs into JobGroups" w;
       groups ← compile_jobgroups_from_joblist_with Job_plus_nl joblist
                  jgprefix sgegroupsize;
       let '(h, ids) := alloc_jobs (objects w) groups in
       Returned (ids, set_objects h w)
     else Returned (joblist, w));
  w ← info logger "Running jobs with scheduler..." w;
  w ← info logger "Jobs passed to scheduler in order:" w;
  w ← for_each (fun job w => info logger (tab +:+ name (objects w !!! job)) w)
               joblist w;
  '(w, waves) ← build_and_submit_jobs rounds jobdir (inl joblist) sgeargs w;
  w ← info logger "Waiting for SGE-submitted jobs to finish (polling)" w;
  w ← for_each Job_wait joblist w;
  Returned (joblist, w, waves).

End Scheduler.

(** ** Example graphs *)

Definition with_deps (d : list jobid) (j : Job) : Job :=
  {| name := name j; command := command j; index := index j;
     script := script j; dependencies := d;
     submitted := submitted j; scriptpath := scriptpath j;
     out := out j; err := err j; tasks := tasks j |}.

(** D (3) depends on B (1) and C (2); B and C depend on A (0). *)
Definition diamond : heap :=
  <[0 := Job_init "A" "run a" "0"]>
  (<[1 := with_deps [0] (Job_init "B" "run b" "1")]>
  (<[2 := with_deps [0] (Job_init "C" "run c" "2")]>
  (<[3 := with_deps [1; 2] (Job_init "D" "run d" "3")]> ∅))).

(** A job that depends on itself. *)
Definition self_loop : heap :=
  <[0 := with_deps [0] (Job_init "A" "run a" "0")]> ∅.

Definition world_of (h : heap) : World :=
  {| objects := h; files := ∅; dirs := ∅; qsub_calls := []; log := [] |}.

(** * Definitions used by the statements *)

(** What a call of [populate_jobset] on [j] returns, whenever the recursion
    limit is at least [n]. *)
Definition populates (h : heap) (n : nat) (j : jobid) : Prop :=
  ∀ limit jobset depth, n ≤ limit →
    ∃ s, populate_jobset limit h j jobset depth = Returned s
         ∧ ∀ x, x ∈ s ↔ x ∈ jobset ∨ rtc (depends_on h) j x.

Definition populates_all (h : heap) (n : nat) (l : list jobid) : Prop :=
  ∀ limit jobset depth, n ≤ limit →
    ∃ s, for_each (fun j s => populate_jobset limit h j s depth) l jobset
           = Returned s
         ∧ ∀ x, x ∈ s ↔ x ∈ jobset ∨ ∃ y, y ∈ l ∧ rtc (depends_on h) y x.

(** In the waves of [new], every dependency of a job was submitted
    beforehand: it shows [submitted] in [h] or belongs to an earlier wave. *)
Definition waves_ordered (h : heap) (new : list (list jobid)) : Prop :=
  ∀ i wave j d,
    new !! i = Some wave → j ∈ wave → d ∈ deps h j →
    submitted (h !!! d) = true
    ∨ ∃ i' wave', i' < i ∧ new !! i' = Some wave' ∧ d ∈ wave'.

(** The waves of a run of the submission loop, as lists and as sets. *)
Definition waves_of {A : Type} (o : outcome (A * list (list jobid)))
  : option (list (list jobid)) :=
  match o with
  | Returned (_, waves) => Some waves
  | _ => None
  end.

Definition wave_sets {A : Type} (o : outcome (A * list (list jobid)))
  : option (list (gset jobid)) :=
  fmap (M := list) list_to_set <$> waves_of o.

(** A dependency chain: each job depends on the next one. *)
Inductive chain (h : heap) : list jobid → Prop :=
  | chain_one j : chain h [j]
  | chain_cons a b c : depends_on h a b → chain h (b :: c) → chain h (a :: b :: c).

Definition chain_from (h : heap) (jobs : list jobid) (c : list jobid) : Prop :=
  chain h c ∧ ∃ j, head c = Some j ∧ j ∈ jobs.

(** The depth of the graph below [jobs] is the number of jobs on a longest
    dependency chain that starts in [jobs] (0 when there is no job). *)
Definition graph_depth (h : heap) (jobs : list jobid) (n : nat) : Prop :=
  (∀ c, chain_from h jobs c → length c ≤ n)
  ∧ ((jobs = [] ∧ n = 0) ∨ ∃ c, chain_from h jobs c ∧ length c = n).

(** Every chain from [j] has at most [k] jobs; some chain from [j] has more. *)
Definition ht_le (h : heap) (j : jobid) (k : nat) : Prop :=
  ∀ c, chain h (j :: c) → length (j :: c) ≤ k.

Definition ht_gt (h : heap) (j : jobid) (k : nat) : Prop :=
  ∃ c, chain h (j :: c) ∧ k < length (j :: c).

(** Every dependency of a listed job is itself in the list. *)
Definition closed (h : heap) (jobs : list jobid) : Prop :=
  ∀ j d, j ∈ jobs → depends_on h j d → d ∈ jobs.

(** The state of the loop after [k] waves: the jobs still waiting are
    those with a chain of more than [k] jobs below them, the jobs marked
    [submitted] are the others. *)
Record wave_inv (h : heap) (jobs : list jobid) (k : nat)
    (waiting : list jobid) (w : World) : Prop := {
  inv_NoDup : NoDup waiting;
  inv_waiting : ∀ j, j ∈ waiting ↔ j ∈ jobs ∧ ht_gt h j k;
  inv_deps : ∀ j, deps (objects w) j = deps h j;
  inv_submitted : ∀ j, j ∈ jobs →
    (submitted (objects w !!! j) = true ↔ ht_le h j k)
}.

(** The names of the jobs [ds], each followed by a comma. *)
Fixpoint names_with_commas (h : heap) (ds : list jobid) : string :=
  match ds with
  | [] => ""
  | d :: ds' => name (h !!! d) +:+ "," +:+ names_with_commas h ds'
  end.

(** The invocation as the specification describes it: base command,
    environment flag, job name, working directory, the two redirect paths
    keyed by the job's index, the task range of a [JobGroup], the hold
    directive of a job with dependencies, the caller's extra arguments. *)
Definition task_range (j : Job) : string :=
  match tasks j with
  | Some n => "-t 1:" +:+ pretty n +:+ " "
  | None => ""
  end.

Definition hold_directive (h : heap) (j : Job) : string :=
  match dependencies j with
  | [] => ""
  | ds => "-hold_jid " +:+ String.concat "," ((fun d => name (h !!! d)) <$> ds)
  end.

Definition extra_arguments (sgeargs : option string) (j : Job) : string :=
  match sgeargs with
  | Some extra => " " +:+ extra +:+ " " +:+ str_of (scriptpath j)
  | None => ""
  end.

Definition spec_invocation (QSUB root_dir : string) (h : heap) (job : jobid)
    (sgeargs : option string) : string :=
  let j := h !!! job in
  QSUB +:+ " -V " +:+ " -N " +:+ name j +:+ " " +:+ " -cwd "
       +:+ " -o " +:+ os_path_join root_dir ("sge/stdout/" +:+ index j)
       +:+ " -e " +:+ os_path_join root_dir ("sge/stderr/" +:+ index j) +:+ " "
       +:+ task_range j +:+ hold_directive h j +:+ extra_arguments sgeargs j.

(** The attributes submission never writes. *)
Definition static_eq (a b : Job) : Prop :=
  name a = name b ∧ command a = command b ∧ index a = index b
  ∧ script a = script b ∧ dependencies a = dependencies b
  ∧ scriptpath a = scriptpath b ∧ tasks a = tasks b.

(** The attributes script writing leaves alone: all but [scriptpath]. *)
Definition same_but_scriptpath (a b : Job) : Prop :=
  name a = name b ∧ command a = command b ∧ index a = index b
  ∧ script a = script b ∧ dependencies a = dependencies b
  ∧ submitted a = submitted b ∧ out a = out b ∧ err a = err b
  ∧ tasks a = tasks b.

(** The commands [l], each followed by a line feed. *)
Fixpoint unlines (l : list string) : string :=
  match l with
  | [] => ""
  | x :: l' => x +:+ nl +:+ unlines l'
  end.

Fixpoint has_nl (s : string) : bool :=
  match s with
  | "" => false
  | String c s' => bool_decide (c = Ascii.ascii_of_nat 10) || has_nl s'
  end.



(** The group with sequence number [k] for the commands [chunk]. *)
Definition group_job (jgprefix : string) (k : nat) (chunk : list string) : Job :=
  Job_init (jgprefix +:+ "_" +:+ pretty k) (unlines chunk) "0".

(** The list a call returned, if it returned. *)
Definition build_joblist_result (o : outcome (list jobid)) : option (list jobid) :=
  match o with
  | Returned joblist => Some joblist
  | _ => None
  end.

(** The number of dependencies over all jobs of the flattened list. *)
Definition total_deps (h : heap) (joblist : list jobid) : nat :=
  sum_list ((fun job => length (deps h job)) <$> joblist).

(** [a] with the separator [os.path.join] puts behind it. *)
Definition with_sep (a : string) : string :=
  if bool_decide (a = "") || endswith_sep a then a else a +:+ "/".

(** The directory the script of [j] is written into. *)
Definition script_dir_of (root_dir : string) (j : Job) : string :=
  os_path_join (os_path_join root_dir "sge/jobs") (index j).

(** What the body of the loop of [build_job_scripts] leaves once the file
    is open, and what the loop leaves when every file could be opened. *)
Definition script_written (root_dir : string) (w : World) (job : jobid) : World :=
  let j := objects w !!! job in
  let scriptpath := script_path_of root_dir j in
  let w := write_file scriptpath (script_text j) w in
  set_objects (update_job (set_scriptpath scriptpath) job (objects w)) w.

Definition scripts_written (root_dir : string) (jobs : list jobid) (w : World)
  : World :=
  foldl (script_written root_dir) w jobs.

(** The last of the jobs [jobs] whose script goes to the path [p]. *)
Definition last_writer (root_dir : string) (h : heap) (jobs : list jobid)
    (p : string) : option jobid :=
  last (filter (fun job => script_path_of root_dir (h !!! job) = p) jobs).

(** Two jobs with the same name and index. *)
Definition twins : heap :=
  <[0 := Job_init "J" "first" "0"]> (<[1 := Job_init "J" "second" "0"]> ∅).

(** * Properties *)

(** ** Generic facts about loops *)

Lemma for_each_ext {A S : Type} (f g : A → S → outcome S) l s :
  (∀ x s, f x s = g x s) → for_each f l s = for_each g l s.
Proof.
  intros Hfg. revert s. induction l as [|x l IH]; intros s; simpl; [done|].
  rewrite Hfg. destruct (g x s); simpl; auto.
Qed.

Lemma for_each_app {A S : Type} (f : A → S → outcome S) l1 l2 s :
  for_each f (l1 ++ l2) s = (s' ← for_each f l1 s; for_each f l2 s').
Proof.
  revert s. induction l1 as [|x l1 IH]; intros s; simpl; [done|].
  destruct (f x s); simpl; auto.
Qed.

(** ** The dependency graph *)

Lemma deps_nonempty_dom (h : heap) j y : depends_on h j y → j ∈ dom h.
Proof.
  unfold depends_on, deps. rewrite lookup_total_alt, elem_of_dom.
  destruct (h !! j); simpl; [eauto|]. intros H. inversion H.
Qed.

Lemma rtc_no_deps (h : heap) j x :
  deps h j = [] → rtc (depends_on h) j x → x = j.
Proof.
  intros Hd Hr. destruct Hr as [|j y z Hjy _]; [done|].
  unfold depends_on in Hjy. rewrite Hd in Hjy. inversion Hjy.
Qed.

Lemma ranked_acyclic (h : heap) :
  (∀ a b, depends_on h a b → b < a) → ∀ j, ¬ tc (depends_on h) j j.
Proof.
  intros Hrank.
  assert (Hlt : ∀ a b, tc (depends_on h) a b → b < a).
  { induction 1 as [a b Hab|a b c Hab _ IH]; [by apply Hrank|].
    apply Hrank in Hab. lia. }
  intros j Hj. apply Hlt in Hj. lia.
Qed.

(** Every path through dependency edges runs inside the finite store, so
    without a cycle it ends: the dependency relation is terminating from
    every job that reaches no cycle. *)
Lemma acyclic_sn_aux (h : heap) n :
  ∀ (visited : gset jobid) j,
    visited ⊆ dom h →
    size (dom h ∖ visited) < n →
    (∀ v, v ∈ visited → tc (depends_on h) v j) →
    (∀ x, rtc (depends_on h) j x → ¬ tc (depends_on h) x x) →
    sn (depends_on h) j.
Proof.
  induction n as [|n IH]; intros visited j Hsub Hsize Hvis Hacy; [lia|].
  constructor. intros y Hy. unfold flip in Hy.
  assert (Hjdom : j ∈ dom h) by (by eapply deps_nonempty_dom).
  assert (Hjv : j ∉ visited).
  { intros Hin. apply (Hacy j); [done|]. by apply Hvis. }
  apply (IH ({[j]} ∪ visited)).
  - set_solver.
  - assert (dom h ∖ visited = {[j]} ∪ dom h ∖ ({[j]} ∪ visited)) as Heq.
    { apply set_eq. intros x. rewrite !elem_of_union, !elem_of_difference,
        elem_of_union, elem_of_singleton.
      destruct (decide (x = j)) as [->|]; naive_solver. }
    rewrite Heq, size_union, size_singleton in Hsize by set_solver. lia.
  - intros v [->%elem_of_singleton|Hv]%elem_of_union.
    + by apply tc_once.
    + eapply tc_r; [by apply Hvis|done].
  - intros x Hx. apply Hacy. by eapply rtc_l.
Qed.

Lemma acyclic_from_sn (h : heap) roots j :
  acyclic_from h roots → reachable h roots j → sn (depends_on h) j.
Proof.
  intros Hacy [r [Hr Hrj]].
  apply (acyclic_sn_aux h (S (size (dom h))) ∅).
  - set_solver.
  - assert (dom h ∖ ∅ = dom h) as -> by set_solver. lia.
  - set_solver.
  - intros x Hx. apply Hacy. exists r. split; [done|]. by etrans.
Qed.

(** ** The resolver *)

Lemma populate_jobset_depth limit h :
  ∀ job jobset d1 d2,
    populate_jobset limit h job jobset d1 = populate_jobset limit h job jobset d2.
Proof.
  induction limit as [|limit IH]; intros job jobset d1 d2; simpl; [done|].
  destruct (length (deps h job) =? 0)%nat; [done|].
  apply for_each_ext. intros x s. apply IH.
Qed.

Lemma populates_all_intro h l :
  (∀ y, y ∈ l → ∃ n, populates h n y) → ∃ n, populates_all h n l.
Proof.
  induction l as [|y l IH]; intros Hl.
  - exists 0. intros limit jobset depth _. exists jobset. split; [done|].
    intros x. split; [auto|]. intros [?|[? [Hin _]]]; [done|inversion Hin].
  - destruct (Hl y) as [n1 H1]; [left|].
    destruct IH as [n2 H2]; [intros; apply Hl; by right|].
    exists (n1 `max` n2). intros limit jobset depth Hle. simpl.
    destruct (H1 limit jobset depth) as [s1 [-> Hs1]]; [lia|]. simpl.
    destruct (H2 limit s1 depth) as [s2 [-> Hs2]]; [lia|].
    exists s2. split; [done|]. intros x. rewrite Hs2, Hs1. split.
    + intros [[?|?]|[z [? ?]]]; [by left| |].
      * right. exists y. split; [left|done].
      * right. exists z. split; [by right|done].
    + intros [?|[z [[->|Hz]%elem_of_cons ?]]]; [by left; left|by left; right|].
      right. by exists z.
Qed.

Lemma sn_populates h j : sn (depends_on h) j → ∃ n, populates h n j.
Proof.
  induction 1 as [j _ IH].
  destruct (populates_all_intro h (deps h j)) as [n Hn].
  { intros y Hy. by apply IH. }
  exists (S n). intros limit jobset depth Hle.
  destruct limit as [|limit]; [lia|]. simpl.
  destruct (length (deps h j) =? 0)%nat eqn:Hlen.
  - apply Nat.eqb_eq, nil_length_inv in Hlen.
    eexists. split; [done|]. intros x.
    rewrite elem_of_union, elem_of_singleton. split.
    + intros [->|?]; [by right|by left].
    + intros [?|Hr]; [by right|]. left. by eapply rtc_no_deps.
  - destruct (Hn limit ({[j]} ∪ jobset) (depth + 1)) as [s [-> Hs]]; [lia|].
    exists s. split; [done|]. intros x.
    rewrite Hs, elem_of_union, elem_of_singleton. split.
    + intros [[->|?]|[y [Hy Hyx]]]; [by right|by left|].
      right. by eapply rtc_l.
    + intros [?|Hr]; [by left; right|].
      destruct Hr as [|j y z Hjy Hyz]; [by left; left|].
      right. by exists y.
Qed.

Lemma build_joblist_reachable h roots :
  acyclic_from h roots →
  ∃ n (jobset : gset jobid),
    (∀ x, x ∈ jobset ↔ reachable h roots x)
    ∧ ∀ limit, n ≤ limit → build_joblist limit h roots = Returned (elements jobset).
Proof.
  intros Hacy.
  destruct (populates_all_intro h roots) as [n Hn].
  { intros y Hy. apply sn_populates. eapply acyclic_from_sn; [done|].
    by exists y. }
  destruct (Hn n ∅ 1) as [s [_ Hs]]; [done|].
  assert (Hreach : ∀ x, x ∈ s ↔ reachable h roots x).
  { intros x. rewrite Hs. unfold reachable. set_solver. }
  exists n, s. split; [done|].
  intros limit Hle. unfold build_joblist.
  destruct (Hn limit ∅ 1) as [s' [-> Hs']]; [done|]. simpl.
  do 2 f_equal. apply set_eq. intros x. rewrite Hs', Hs. done.
Qed.

Lemma reachable_idemp h roots (jobset : gset jobid) :
  (∀ x, x ∈ jobset ↔ reachable h roots x) →
  ∀ x, reachable h (elements jobset) x ↔ reachable h roots x.
Proof.
  intros Hs x. split.
  - intros [y [Hy%elem_of_elements%Hs Hyx]].
    destruct Hy as [r [Hr Hry]]. exists r. split; [done|]. by etrans.
  - intros Hx. exists x. split; [|done]. by apply elem_of_elements, Hs.
Qed.

Lemma diamond_ranked a b : depends_on diamond a b → b < a.
Proof.
  unfold depends_on, deps, diamond.
  destruct a as [|[|[|[|a]]]].
  - vm_compute. inversion 1.
  - vm_compute. intros ->%list_elem_of_singleton. lia.
  - vm_compute. intros ->%list_elem_of_singleton. lia.
  - vm_compute. intros [-> | ->%list_elem_of_singleton]%elem_of_cons; lia.
  - rewrite !lookup_total_insert_ne by lia. rewrite lookup_total_empty.
    inversion 1.
Qed.

Lemma diamond_acyclic roots : acyclic_from diamond roots.
Proof. intros j _. apply ranked_acyclic, diamond_ranked. Qed.

(** C2: for an acyclic collection of roots, [build_joblist] returns (for
    every recursion limit that is large enough) a list without repetition
    whose members are exactly the jobs reachable from the roots through
    dependency edges; flattening that list again returns the same list; and
    the [depth] argument of [populate_jobset] has no influence on what it
    returns. *)
Theorem build_joblist_flattens (h : heap) (roots : list jobid) :
  acyclic_from h roots →
  ∃ n, ∀ limit, n ≤ limit →
    ∃ joblist,
      build_joblist limit h roots = Returned joblist
      ∧ NoDup joblist
      ∧ (∀ j, j ∈ joblist ↔ reachable h roots j)
      ∧ build_joblist limit h joblist = Returned joblist
      ∧ (∀ job jobset d1 d2,
           populate_jobset limit h job jobset d1
           = populate_jobset limit h job jobset d2).
Proof.
  intros Hacy.
  destruct (build_joblist_reachable h roots Hacy) as (n1 & s & Hs & Hn1).
  destruct (build_joblist_reachable h (elements s)) as (n2 & s2 & Hs2 & Hn2).
  { intros j Hj. apply Hacy. by apply (reachable_idemp h roots s). }
  assert (s2 = s) as ->.
  { apply set_eq. intros x. rewrite Hs2, Hs. by apply reachable_idemp. }
  exists (n1 `max` n2). intros limit Hle. exists (elements s).
  split; [apply Hn1; lia|].
  split; [apply NoDup_elements|].
  split; [intros j; by rewrite elem_of_elements|].
  split; [apply Hn2; lia|].
  apply populate_jobset_depth.
Qed.

Lemma build_joblist_flattens_witness :
  ∃ n, ∀ limit, n ≤ limit →
    ∃ joblist,
      build_joblist limit diamond [3] = Returned joblist
      ∧ NoDup joblist
      ∧ (∀ j, j ∈ joblist ↔ reachable diamond [3] j)
      ∧ build_joblist limit diamond joblist = Returned joblist
      ∧ (∀ job jobset d1 d2,
           populate_jobset limit diamond job jobset d1
           = populate_jobset limit diamond job jobset d2).
Proof. apply (build_joblist_flattens diamond [3]), diamond_acyclic. Defined.

(** *** Cycles *)

Lemma populate_jobset_outcome limit h :
  ∀ job jobset depth,
    (∃ s, populate_jobset limit h job jobset depth = Returned s)
    ∨ populate_jobset limit h job jobset depth = Raised RecursionError.
Proof.
  induction limit as [|limit IH]; intros job jobset depth; simpl; [by right|].
  destruct (length (deps h job) =? 0)%nat; [left; eauto|].
  generalize ({[job]} ∪ jobset). generalize (deps h job).
  induction l as [|x l IHl]; intros s; simpl; [left; eauto|].
  destruct (IH x s (depth + 1)) as [[s' ->]| ->]; simpl; [apply IHl|by right].
Qed.

Lemma for_each_populate_raises limit h depth l y :
  y ∈ l →
  (∀ s, populate_jobset limit h y s depth = Raised RecursionError) →
  ∀ s, for_each (fun j s => populate_jobset limit h j s depth) l s
       = Raised RecursionError.
Proof.
  intros Hy Hfail. induction l as [|x l IH]; intros s; [inversion Hy|].
  simpl. apply elem_of_cons in Hy as [<-|Hy].
  - by rewrite Hfail.
  - destruct (populate_jobset_outcome limit h x s depth) as [[s' ->]| ->];
      simpl; [by apply IH|done].
Qed.

Lemma reaches_cycle_step h j :
  reaches_cycle h j → ∃ y, depends_on h j y ∧ reaches_cycle h y.
Proof.
  intros (c & Hjc & Hcc). destruct Hjc as [j|j y c Hjy Hyc].
  - inversion Hcc as [? ? Hjj|? y ? Hjy Hyj]; subst.
    + exists j. split; [done|]. exists j. split; [done|by apply tc_once].
    + exists y. split; [done|]. exists j. split; [by apply tc_rtc|done].
  - exists y. split; [done|]. by exists c.
Qed.

Lemma populate_jobset_cycle limit h :
  ∀ job jobset depth,
    reaches_cycle h job →
    populate_jobset limit h job jobset depth = Raised RecursionError.
Proof.
  induction limit as [|limit IH]; intros job jobset depth Hcyc; simpl; [done|].
  destruct (reaches_cycle_step h job Hcyc) as (y & Hjy & Hy).
  destruct (length (deps h job) =? 0)%nat eqn:Hlen.
  - apply Nat.eqb_eq, nil_length_inv in Hlen.
    unfold depends_on in Hjy. rewrite Hlen in Hjy. inversion Hjy.
  - apply for_each_populate_raises with y; [done|].
    intros s. by apply IH.
Qed.

Lemma build_joblist_cycle limit h roots r :
  r ∈ roots → reaches_cycle h r →
  build_joblist limit h roots = Raised RecursionError.
Proof.
  intros Hr Hcyc. unfold build_joblist.
  rewrite for_each_populate_raises with (y := r); [done|done|].
  intros s. by apply populate_jobset_cycle.
Qed.

Lemma self_loop_cycle : reaches_cycle self_loop 0.
Proof.
  exists 0. split; [done|]. apply tc_once.
  unfold depends_on, deps. vm_compute. left.
Qed.

(** C5, as stated, fails: on the graph whose one job depends on itself the
    traversal raises no cyclic-dependency error, whatever the recursion
    limit. *)
Lemma cyclic_error_counterexample :
  reaches_cycle self_loop 0
  ∧ ∀ limit, build_joblist limit self_loop [0] ≠ Raised CyclicDependencyError.
Proof.
  split; [apply self_loop_cycle|]. intros limit.
  rewrite (build_joblist_cycle limit self_loop [0] 0);
    [done|left|apply self_loop_cycle].
Qed.

(** C5 (amended): when a cycle can be reached from a root, the traversal
    has no marker to notice it; it recurses until the recursion limit and
    fails with [RecursionError], whatever the limit, and
    [run_dependency_graph] fails with it before anything is written or
    submitted. *)
Theorem build_joblist_cyclic (h : heap) (roots : list jobid) (r : jobid) :
  r ∈ roots → reaches_cycle h r →
  ∀ limit,
    build_joblist limit h roots = Raised RecursionError
    ∧ ∀ QSUB st rounds jobdir logger jgprefix sgegroupsize sgeargs w,
        objects w = h →
        run_dependency_graph QSUB st limit rounds jobdir roots logger jgprefix
                             sgegroupsize sgeargs w
        = Raised RecursionError.
Proof.
  intros Hr Hcyc limit.
  pose proof (build_joblist_cycle limit h roots r Hr Hcyc) as Hb.
  split; [done|]. intros. subst h. unfold run_dependency_graph.
  by rewrite Hb.
Qed.

Lemma build_joblist_cyclic_witness :
  build_joblist 5 self_loop [0] = Raised RecursionError
  ∧ run_dependency_graph "qsub" (fun _ _ => 0%Z) 5 5 "out" [0]
      (Some logging_Logger) "ANIm_SGE_JG" 10000 None (world_of self_loop)
    = Raised RecursionError.
Proof.
  destruct (build_joblist_cyclic self_loop [0] 0) with (limit := 5)
    as [Hb Hrun]; [left|apply self_loop_cycle|].
  split; [exact Hb|]. by apply Hrun.
Defined.

(** ** Extraction of the submittable jobs *)

Lemma unsatisfied_zero (h : heap) job :
  unsatisfied h job = 0 ↔ ∀ d, d ∈ deps h job → submitted (h !!! d) = true.
Proof.
  unfold unsatisfied. induction (deps h job) as [|x l IH]; csimpl.
  - split; [|done]. intros _ d Hd. inversion Hd.
  - split.
    + intros Hsum d [->|Hd]%elem_of_cons.
      * destruct (submitted (h !!! x)); [done|lia].
      * apply IH; [|done]. lia.
    + intros Hall. rewrite (Hall x) by left. simpl. apply IH.
      intros d Hd. apply Hall. by right.
Qed.

Lemma extract_fold_elem_of (h : heap) waiting (acc : gset jobid) j :
  j ∈ foldl (fun (submittable : gset jobid) job =>
               if (unsatisfied h job =? 0)%nat then {[job]} ∪ submittable
               else submittable) acc waiting
  ↔ j ∈ acc ∨ (j ∈ waiting ∧ unsatisfied h j = 0).
Proof.
  revert acc. induction waiting as [|x l IH]; intros acc; simpl.
  - split; [auto|]. intros [?|[Hin _]]; [done|inversion Hin].
  - rewrite IH. destruct (unsatisfied h x =? 0)%nat eqn:Hx.
    + apply Nat.eqb_eq in Hx. rewrite elem_of_union, elem_of_singleton, elem_of_cons.
      naive_solver.
    + apply Nat.eqb_neq in Hx. rewrite elem_of_cons. naive_solver.
Qed.

Lemma extract_submittable_elem_of (h : heap) waiting j :
  j ∈ extract_submittable_jobs h waiting
  ↔ j ∈ waiting ∧ ∀ d, d ∈ deps h j → submitted (h !!! d) = true.
Proof.
  unfold extract_submittable_jobs.
  rewrite elem_of_elements, extract_fold_elem_of, unsatisfied_zero.
  set_solver.
Qed.

Lemma extract_submittable_NoDup (h : heap) waiting :
  NoDup (extract_submittable_jobs h waiting).
Proof. apply NoDup_elements. Qed.

(** ** What submission changes in the store *)

Lemma lookup_total_update_job (f : Job → Job) job (h : heap) j :
  update_job f job h !!! j = if decide (job = j) then f (h !!! job) else h !!! j.
Proof.
  unfold update_job. destruct (decide (job = j)) as [->|Hne].
  - by rewrite lookup_total_insert_eq.
  - by rewrite lookup_total_insert_ne.
Qed.

Section SubmissionFacts.

Variable QSUB : string.
Variable st : World → string → Z.
Variable root_dir : string.
Variable sgeargs : option string.

Lemma submit_safe_job_objects w job j :
  objects (submit_safe_job QSUB st root_dir sgeargs w job) !!! j
  = if decide (job = j)
    then set_submitted true
           (set_out_err
              (os_path_join root_dir ("sge/stdout/" +:+ index (objects w !!! job)))
              (os_path_join root_dir ("sge/stderr/" +:+ index (objects w !!! job)))
              (objects w !!! job))
    else objects w !!! j.
Proof.
  unfold submit_safe_job. simpl. rewrite !lookup_total_update_job.
  destruct (decide (job = j)) as [->|]; [|done].
  by rewrite decide_True by done.
Qed.

Lemma submit_safe_jobs_deps jobs : ∀ w j,
  deps (objects (submit_safe_jobs QSUB st root_dir jobs sgeargs w)) j
  = deps (objects w) j.
Proof.
  unfold submit_safe_jobs. induction jobs as [|x l IH]; intros w j; simpl; [done|].
  rewrite IH. unfold deps. rewrite submit_safe_job_objects.
  by destruct (decide (x = j)) as [->|].
Qed.

Lemma submit_safe_jobs_name jobs : ∀ w j,
  name (objects (submit_safe_jobs QSUB st root_dir jobs sgeargs w) !!! j)
  = name (objects w !!! j).
Proof.
  unfold submit_safe_jobs. induction jobs as [|x l IH]; intros w j; simpl; [done|].
  rewrite IH, submit_safe_job_objects.
  by destruct (decide (x = j)) as [->|].
Qed.

Lemma submit_safe_jobs_submitted jobs : ∀ w j,
  submitted (objects (submit_safe_jobs QSUB st root_dir jobs sgeargs w) !!! j) = true
  ↔ j ∈ jobs ∨ submitted (objects w !!! j) = true.
Proof.
  unfold submit_safe_jobs. induction jobs as [|x l IH]; intros w j; simpl.
  - split; [auto|]. intros [Hin|?]; [inversion Hin|done].
  - rewrite IH, submit_safe_job_objects, elem_of_cons.
    destruct (decide (x = j)) as [->|]; simpl; naive_solver.
Qed.

(** The accumulator of waves only collects. *)
Lemma submit_jobs_loop_waves rounds : ∀ waiting w pre,
  submit_jobs_loop QSUB st rounds root_dir sgeargs waiting w pre
  = '(w', waves) ← submit_jobs_loop QSUB st rounds root_dir sgeargs waiting w [];
    Returned (w', pre ++ waves).
Proof.
  induction rounds as [|rounds IH]; intros waiting w pre; simpl.
  - destruct (0 <? length waiting)%nat; simpl; [done|]. by rewrite app_nil_r.
  - destruct (0 <? length waiting)%nat; simpl; [|by rewrite app_nil_r].
    destruct (for_each list_remove _ waiting) as [waiting'| |]; simpl; [|done..].
    rewrite IH. rewrite (IH _ _ [_]).
    destruct (submit_jobs_loop _ _ _ _ _ waiting' _ []) as [[w' waves]| |];
      simpl; [|done..].
    by rewrite <- app_assoc.
Qed.

Lemma submit_jobs_loop_ordered rounds : ∀ waiting w w' waves,
  submit_jobs_loop QSUB st rounds root_dir sgeargs waiting w [] = Returned (w', waves) →
  waves_ordered (objects w) waves.
Proof.
  induction rounds as [|rounds IH]; intros waiting w w' waves; simpl.
  - destruct (0 <? length waiting)%nat; [done|]. intros [= <- <-].
    intros i wave j d Hi. done.
  - destruct (0 <? length waiting)%nat; [|intros [= <- <-]; by intros i wave j d Hi].
    destruct (for_each list_remove _ waiting) as [waiting'| |]; simpl; [|done..].
    rewrite submit_jobs_loop_waves.
    destruct (submit_jobs_loop _ _ _ _ _ waiting' _ []) as [[w1 waves1]| |] eqn:Hrec;
      simpl; [|done..].
    intros [= <- <-]. apply IH in Hrec.
    intros i wave j d Hi Hj Hd. destruct i as [|i]; simpl in Hi.
    + injection Hi as <-. left.
      apply extract_submittable_elem_of in Hj as [_ Hj]. by apply Hj.
    + destruct (Hrec i wave j d Hi Hj) as [Hsub|(i' & wave' & Hlt & Hi' & Hd')].
      * by rewrite submit_safe_jobs_deps.
      * apply submit_safe_jobs_submitted in Hsub as [Hin|Hsub]; [|by left].
        right. exists 0, (extract_submittable_jobs (objects w) waiting).
        split; [lia|]. done.
      * right. exists (S i'), wave'. split; [lia|]. done.
Qed.

End SubmissionFacts.

(** C1: [extract_submittable_jobs] returns exactly the jobs of [waiting]
    all of whose dependencies show [submitted]; nothing is returned for an
    empty list; so in every run of the submission loop each dependency of
    an extracted job was submitted before the job's wave; and the diamond
    is submitted in the waves {A}, {B, C}, {D}. *)
Theorem extract_submittable_jobs_waves (QSUB : string)
    (st : World → string → Z) (root_dir : string) (sgeargs : option string) :
  (∀ h waiting j,
     j ∈ extract_submittable_jobs h waiting
     ↔ j ∈ waiting ∧ ∀ d, d ∈ deps h j → submitted (h !!! d) = true)
  ∧ (∀ h waiting, NoDup (extract_submittable_jobs h waiting))
  ∧ (∀ h, extract_submittable_jobs h [] = [])
  ∧ (∀ rounds jobs w waves,
       waves_of (submit_jobs QSUB st rounds root_dir jobs sgeargs w) = Some waves →
       waves_ordered (objects w) waves)
  ∧ wave_sets (submit_jobs QSUB st 3 root_dir [3; 2; 1; 0] sgeargs (world_of diamond))
    = Some [{[0]}; {[1; 2]}; {[3]}].
Proof.
  split; [apply extract_submittable_elem_of|].
  split; [apply extract_submittable_NoDup|].
  split; [done|].
  split.
  - intros rounds jobs w waves Hrun. unfold submit_jobs in Hrun.
    destruct (submit_jobs_loop _ _ _ _ _ _ _ _) as [[w' waves']| |] eqn:Hloop;
      simpl in Hrun; [|done..].
    injection Hrun as <-. by eapply submit_jobs_loop_ordered.
  - vm_compute. reflexivity.
Qed.

Lemma extract_submittable_jobs_waves_witness :
  waves_ordered diamond [[0]; [2; 1]; [3]].
Proof.
  apply (proj1 (proj2 (proj2 (proj2
           (extract_submittable_jobs_waves "qsub" (fun _ _ => 0%Z) "out" None))))
         3 [3; 2; 1; 0] (world_of diamond)).
  vm_compute. reflexivity.
Defined.

(** ** Depth of a dependency graph *)

Lemma graph_depth_unique h jobs n m :
  graph_depth h jobs n → graph_depth h jobs m → n = m.
Proof.
  intros [Hn1 Hn2] [Hm1 Hm2].
  destruct Hn2 as [[-> ->]|(c & Hc & <-)], Hm2 as [[Hnil ->]|(c' & Hc' & <-)].
  - done.
  - destruct Hc' as (_ & j & _ & Hj). inversion Hj.
  - subst jobs. destruct Hc as (_ & j & _ & Hj). inversion Hj.
  - apply Hm1 in Hc. apply Hn1 in Hc'. lia.
Qed.

Lemma ht_le_S h j k :
  ht_le h j (S k) ↔ ∀ d, depends_on h j d → ht_le h d k.
Proof.
  split.
  - intros Hle d Hd c Hc.
    specialize (Hle (d :: c) (chain_cons h j d c Hd Hc)). simpl in *. lia.
  - intros Hall c Hc. inversion Hc as [|? b c' Hjb Hbc]; subst; simpl; [lia|].
    specialize (Hall b Hjb c' Hbc). simpl in Hall. lia.
Qed.

Lemma ht_le_0 h j : ¬ ht_le h j 0.
Proof. intros H. specialize (H [] (chain_one h j)). simpl in H. lia. Qed.

Lemma ht_le_mono h j k k' : ht_le h j k → k ≤ k' → ht_le h j k'.
Proof. intros H Hle c Hc. specialize (H c Hc). lia. Qed.

Lemma ht_gt_mono h j k k' : ht_gt h j k' → k ≤ k' → ht_gt h j k.
Proof. intros (c & Hc & Hlt) Hle. exists c. split; [done|lia]. Qed.

Lemma ht_le_gt h j k : ht_le h j k → ht_gt h j k → False.
Proof. intros Hle (c & Hc & Hlt). specialize (Hle c Hc). lia. Qed.

Lemma ht_dichotomy h k : ∀ j, ht_le h j k ∨ ht_gt h j k.
Proof.
  induction k as [|k IH]; intros j.
  - right. exists []. split; [constructor|simpl; lia].
  - assert (Hlist : ∀ l : list jobid,
              (∀ d, d ∈ l → ht_le h d k) ∨ (∃ d, d ∈ l ∧ ht_gt h d k)).
    { induction l as [|x l IHl]; [left; intros d Hd; inversion Hd|].
      destruct (IH x) as [Hx|Hx]; [|right; exists x; split; [left|done]].
      destruct IHl as [Hl|(d & Hd & Hgt)].
      - left. intros d [->|Hd]%elem_of_cons; auto.
      - right. exists d. split; [by right|done]. }
    destruct (Hlist (deps h j)) as [Hall|(d & Hd & c & Hc & Hlt)].
    + left. by apply ht_le_S.
    + right. exists (d :: c). split; [by constructor|simpl in *; lia].
Qed.

Lemma chain_tc h a c :
  chain h (a :: c) → ∀ x, x ∈ c → tc (depends_on h) a x.
Proof.
  revert a. induction c as [|b c IH]; intros a Hc x Hx; [inversion Hx|].
  inversion Hc as [|? ? ? Hab Hbc]; subst.
  apply elem_of_cons in Hx as [->|Hx]; [by apply tc_once|].
  eapply tc_l; [done|]. by apply IH.
Qed.

Lemma chain_tail h a c : chain h (a :: c) → c = [] ∨ chain h c.
Proof. inversion 1; subst; [by left|by right]. Qed.

Lemma chain_NoDup h c :
  chain h c → (∀ x, x ∈ c → ¬ tc (depends_on h) x x) → NoDup c.
Proof.
  induction c as [|a c IH]; intros Hc Hacy; [constructor|].
  constructor.
  - intros Ha. apply (Hacy a); [left|]. by eapply chain_tc.
  - destruct (chain_tail h a c Hc) as [->|Hc']; [constructor|].
    apply IH; [done|]. intros x Hx. apply Hacy. by right.
Qed.

Section Closed.

Variable h : heap.
Variable jobs : list jobid.

Hypothesis Hclosed : closed h jobs.

Lemma chain_closed c j :
  chain h (j :: c) → j ∈ jobs → ∀ x, x ∈ j :: c → x ∈ jobs.
Proof.
  revert j. induction c as [|b c IH]; intros j Hc Hj x Hx.
  - by apply list_elem_of_singleton in Hx as ->.
  - inversion Hc as [|? ? ? Hjb Hbc]; subst.
    apply elem_of_cons in Hx as [->|Hx]; [done|].
    apply (IH b); [done| |done]. by eapply Hclosed.
Qed.

Lemma closed_acyclic_bound :
  acyclic_from h jobs → ∀ j, j ∈ jobs → ht_le h j (length jobs).
Proof.
  intros Hacy j Hj c Hc.
  assert (Hin : ∀ x, x ∈ j :: c → x ∈ jobs) by (by apply chain_closed).
  apply submseteq_length, NoDup_submseteq; [|done].
  apply (chain_NoDup h); [done|].
  intros x Hx. apply Hacy. exists x. split; [by apply Hin|done].
Qed.

End Closed.

(** ** Removing the submitted jobs from the waiting list *)

Lemma list_remove_spec x l :
  NoDup l → x ∈ l →
  ∃ l', list_remove x l = Returned l' ∧ NoDup l'
        ∧ (∀ y, y ∈ l' ↔ y ∈ l ∧ y ≠ x) ∧ l ≡ₚ x :: l'.
Proof.
  induction l as [|a l IH]; intros Hnd Hx; [inversion Hx|].
  apply NoDup_cons in Hnd as [Ha Hnd]. simpl.
  destruct (decide (a = x)) as [->|Hne].
  - exists l. split; [done|]. split; [done|]. split; [|done].
    intros y. rewrite elem_of_cons. naive_solver.
  - apply elem_of_cons in Hx as [->|Hx]; [done|].
    destruct (IH Hnd Hx) as (l' & -> & Hnd' & Hmem & Hperm). simpl.
    exists (a :: l'). split; [done|]. split.
    + apply NoDup_cons. split; [|done]. rewrite Hmem. naive_solver.
    + split.
      * intros y. rewrite !elem_of_cons, Hmem. naive_solver.
      * rewrite Hperm. apply Permutation_swap.
Qed.

Lemma for_each_list_remove sub : ∀ l,
  NoDup sub → NoDup l → (∀ x, x ∈ sub → x ∈ l) →
  ∃ l', for_each list_remove sub l = Returned l' ∧ NoDup l'
        ∧ (∀ y, y ∈ l' ↔ y ∈ l ∧ y ∉ sub) ∧ l ≡ₚ sub ++ l'.
Proof.
  induction sub as [|x sub IH]; intros l Hsub Hl Hin; simpl.
  - exists l. split; [done|]. split; [done|]. split; [|done].
    intros y. split; [|naive_solver]. intros ?. split; [done|]. inversion 1.
  - apply NoDup_cons in Hsub as [Hx Hsub].
    destruct (list_remove_spec x l Hl) as (l1 & -> & Hl1 & Hmem1 & Hperm1);
      [apply Hin; left|]. simpl.
    destruct (IH l1 Hsub Hl1) as (l' & -> & Hl' & Hmem & Hperm).
    { intros y Hy. apply Hmem1. split; [apply Hin; by right|]. by intros ->. }
    exists l'. split; [done|]. split; [done|]. split.
    + intros y. rewrite Hmem, Hmem1, not_elem_of_cons. naive_solver.
    + by rewrite Hperm1, Hperm.
Qed.

(** ** The submission loop on a closed acyclic collection *)

Section Waves.

Variable QSUB : string.
Variable st : World → string → Z.
Variable root_dir : string.
Variable sgeargs : option string.
Variable h : heap.
Variable jobs : list jobid.
Hypothesis Hclosed : closed h jobs.

Lemma wave_inv_submittable k waiting w j :
  wave_inv h jobs k waiting w →
  j ∈ extract_submittable_jobs (objects w) waiting
  ↔ j ∈ jobs ∧ ht_gt h j k ∧ ht_le h j (S k).
Proof.
  intros [_ Hwait Hdeps Hsub].
  rewrite extract_submittable_elem_of, Hwait, Hdeps, ht_le_S.
  split.
  - intros [[Hj Hgt] Hall]. split; [done|]. split; [done|].
    intros d Hd. apply Hsub; [by eapply Hclosed|]. by apply Hall.
  - intros (Hj & Hgt & Hall). split; [done|].
    intros d Hd. apply Hsub; [by eapply Hclosed|]. by apply Hall.
Qed.

Lemma wave_inv_step k waiting w :
  wave_inv h jobs k waiting w →
  let submittable := extract_submittable_jobs (objects w) waiting in
  ∃ waiting',
    for_each list_remove submittable waiting = Returned waiting'
    ∧ wave_inv h jobs (S k) waiting'
        (submit_safe_jobs QSUB st root_dir submittable sgeargs w)
    ∧ waiting ≡ₚ submittable ++ waiting'.
Proof.
  intros Hinv submittable.
  pose proof (fun j => wave_inv_submittable k waiting w j Hinv) as Hsubm.
  fold submittable in Hsubm.
  destruct Hinv as [Hnd Hwait Hdeps Hsub].
  destruct (for_each_list_remove submittable waiting)
    as (waiting' & Hrem & Hnd' & Hmem & Hperm);
    [apply extract_submittable_NoDup|done| |].
  { intros x Hx. apply Hwait. apply Hsubm in Hx. naive_solver. }
  exists waiting'. split; [done|]. split; [|done].
  constructor.
  - done.
  - intros j. rewrite Hmem, Hwait, Hsubm. split.
    + intros [[Hj Hgt] Hnot]. split; [done|].
      destruct (ht_dichotomy h (S k) j) as [Hle|]; [|done].
      destruct Hnot. done.
    + intros [Hj Hgt]. split; [split; [done|]|].
      * eapply ht_gt_mono; [done|lia].
      * intros (_ & _ & Hle). by eapply ht_le_gt.
  - intros j. by rewrite submit_safe_jobs_deps.
  - intros j Hj. rewrite submit_safe_jobs_submitted, Hsubm, (Hsub j Hj).
    split.
    + intros [(_ & _ & Hle)|Hle]; [done|]. eapply ht_le_mono; [done|lia].
    + intros Hle. destruct (ht_dichotomy h k j) as [?|Hgt]; [by right|].
      by left.
Qed.

Lemma wave_inv_loop m : ∀ k waiting w,
  wave_inv h jobs k waiting w →
  (∀ j, j ∈ jobs → ht_le h j (k + m)) →
  ∃ w' waves,
    (∀ rounds, m ≤ rounds →
       submit_jobs_loop QSUB st rounds root_dir sgeargs waiting w []
       = Returned (w', waves))
    ∧ (∀ j, j ∈ jobs → submitted (objects w' !!! j) = true)
    ∧ (∀ j, j ∈ jobs → ht_le h j (k + length waves))
    ∧ (waves = [] ∧ waiting = []
       ∨ ∃ j, j ∈ jobs ∧ ht_gt h j (k + length waves - 1) ∧ waves ≠ [])
    ∧ waiting ≡ₚ concat waves.
Proof.
  induction m as [|m IH]; intros k waiting w Hinv Hbound.
  - assert (waiting = []) as ->.
    { destruct waiting as [|j l]; [done|]. exfalso.
      assert (Hj : j ∈ j :: l) by left.
      apply (inv_waiting _ _ _ _ _ Hinv) in Hj as [Hj Hgt].
      eapply ht_le_gt; [|done]. rewrite <- (Nat.add_0_r k). by apply Hbound. }
    exists w, []. split; [intros rounds _; by destruct rounds|].
    split; [|split; [|split; [by left|done]]].
    + intros j Hj. apply (inv_submitted _ _ _ _ _ Hinv); [done|].
      rewrite <- (Nat.add_0_r k). by apply Hbound.
    + done.
  - destruct waiting as [|j0 l] eqn:Hw.
    { exists w, []. split; [intros rounds _; by destruct rounds|].
      assert (Hall : ∀ j, j ∈ jobs → ht_le h j k).
      { intros j Hj. destruct (ht_dichotomy h k j) as [?|Hgt]; [done|].
        assert (j ∈ []) as Hin by (by apply (inv_waiting _ _ _ _ _ Hinv)).
        inversion Hin. }
      split; [|split; [|split; [by left|done]]].
      - intros j Hj. apply (inv_submitted _ _ _ _ _ Hinv); auto.
      - simpl. intros j Hj. rewrite Nat.add_0_r. auto. }
    rewrite <- Hw in *.
    assert (Hj0 : j0 ∈ jobs ∧ ht_gt h j0 k).
    { apply (inv_waiting _ _ _ _ _ Hinv). rewrite Hw. left. }
    destruct (wave_inv_step k waiting w Hinv) as (waiting' & Hrem & Hinv' & Hperm).
    destruct (IH (S k) waiting' _ Hinv') as (w' & waves & Hrun & Hsub & Hle & Hlast & Hperm').
    { intros j Hj. replace (S k + m) with (k + S m) by lia. by apply Hbound. }
    exists w', (extract_submittable_jobs (objects w) waiting :: waves).
    split; [|split; [done|split; [|split]]].
    + intros rounds Hrounds. destruct rounds as [|rounds]; [lia|].
      simpl. rewrite Hw at 1. simpl. rewrite Hrem. simpl.
      rewrite submit_jobs_loop_waves, Hrun by lia. done.
    + intros j Hj. simpl. replace (k + S (length waves)) with (S k + length waves) by lia.
      by apply Hle.
    + right. destruct Hlast as [[-> _]|(j & Hj & Hgt & Hne)].
      * exists j0. simpl. replace (k + 1 - 1) with k by lia. naive_solver.
      * exists j. split; [done|]. split; [|done]. simpl.
        destruct waves as [|? ?]; [done|]. simpl in *.
        replace (k + S (S (length waves)) - 1) with (S k + S (length waves) - 1) by lia.
        done.
    + simpl. etrans; [exact Hperm|]. by apply Permutation_app_head.
Qed.

End Waves.

Lemma diamond_closed : closed diamond [3; 2; 1; 0].
Proof.
  intros j d Hj Hd. apply diamond_ranked in Hd.
  assert (j ≤ 3).
  { repeat (apply elem_of_cons in Hj as [->|Hj]; [lia|]). inversion Hj. }
  destruct d as [|[|[|d]]]; [set_solver..|lia].
Qed.

Lemma diamond_unsubmitted j :
  j ∈ [3; 2; 1; 0] → submitted (diamond !!! j) = false.
Proof.
  intros Hj.
  repeat (apply elem_of_cons in Hj as [->|Hj]; [by vm_compute|]). inversion Hj.
Qed.

(** C6: on a duplicate-free collection of jobs that is closed under
    dependencies, acyclic and not yet submitted, the loop of [submit_jobs]
    ends (as soon as it is given [length jobs] iterations), every job is
    then submitted, the waves together are the jobs (so nothing is left
    waiting), and the number of waves is the depth of the dependency
    graph. *)
Theorem submit_jobs_terminates (QSUB : string) (st : World → string → Z)
    (root_dir : string) (sgeargs : option string) (w : World)
    (jobs : list jobid) :
  NoDup jobs →
  closed (objects w) jobs →
  acyclic_from (objects w) jobs →
  (∀ j, j ∈ jobs → submitted (objects w !!! j) = false) →
  ∃ w' waves,
    (∀ rounds, length jobs ≤ rounds →
       submit_jobs QSUB st rounds root_dir jobs sgeargs w = Returned (w', waves))
    ∧ (∀ j, j ∈ jobs → submitted (objects w' !!! j) = true)
    ∧ jobs ≡ₚ concat waves
    ∧ graph_depth (objects w) jobs (length waves).
Proof.
  intros Hnd Hclosed Hacy Hunsub.
  destruct (wave_inv_loop QSUB st root_dir sgeargs (objects w) jobs Hclosed
              (length jobs) 0 jobs w)
    as (w' & waves & Hrun & Hsub & Hle & Hlast & Hperm).
  { constructor; [done| |done|].
    - intros j. split; [|naive_solver]. intros Hj. split; [done|].
      exists []. split; [constructor|simpl; lia].
    - intros j Hj. rewrite (Hunsub j Hj). split; [done|].
      intros Hle. by apply ht_le_0 in Hle. }
  { intros j Hj. by apply closed_acyclic_bound. }
  exists w', waves. split; [done|]. split; [done|]. split; [done|].
  simpl in *. split.
  - intros c (Hc & j & Hhd & Hj). destruct c as [|a c]; [done|].
    injection Hhd as ->. by apply Hle.
  - destruct Hlast as [[-> ->]|(j & Hj & (c & Hc & Hgt) & Hne)]; [by left|].
    right. exists (j :: c). split.
    + split; [done|]. by exists j.
    + specialize (Hle j Hj c Hc). destruct waves; [done|]. simpl in *. lia.
Qed.

Lemma submit_jobs_terminates_witness :
  ∃ w' waves,
    (∀ rounds, length [3; 2; 1; 0] ≤ rounds →
       submit_jobs "qsub" (fun _ _ => 0%Z) rounds "out" [3; 2; 1; 0] None
                   (world_of diamond) = Returned (w', waves))
    ∧ (∀ j, j ∈ [3; 2; 1; 0] → submitted (objects w' !!! j) = true)
    ∧ [3; 2; 1; 0] ≡ₚ concat waves
    ∧ graph_depth (objects (world_of diamond)) [3; 2; 1; 0] (length waves).
Proof.
  apply (submit_jobs_terminates "qsub" (fun _ _ => 0%Z) "out" None
           (world_of diamond) [3; 2; 1; 0]).
  - apply (bool_decide_unpack _). vm_compute. exact I.
  - apply diamond_closed.
  - apply diamond_acyclic.
  - apply diamond_unsubmitted.
Defined.

(** A job listed twice is extracted in two successive waves: the first
    [waiting.remove] takes one occurrence away, the other is still waiting
    in the next iteration.  This is why the collection above is one of
    distinct jobs. *)
Lemma submit_jobs_repeated_job :
  waves_of (submit_jobs "qsub" (fun _ _ => 0%Z) 5 "out" [0; 0] None
                        (world_of diamond))
  = Some [[0]; [0]].
Proof. by vm_compute. Qed.

(** ** Strings *)

Lemma str_app_cons (c : ascii) (s t : string) :
  String c s +:+ t = String c (s +:+ t).
Proof. reflexivity. Qed.

Lemma str_app_nil_l (s : string) : "" +:+ s = s.
Proof. reflexivity. Qed.

Lemma str_app_assoc (s1 s2 s3 : string) : (s1 +:+ s2) +:+ s3 = s1 +:+ (s2 +:+ s3).
Proof.
  induction s1 as [|c s1 IH]; [done|]. rewrite !str_app_cons. by f_equal.
Qed.

Lemma str_app_nil_r (s : string) : s +:+ "" = s.
Proof. induction s as [|c s IH]; [done|]. rewrite str_app_cons. by f_equal. Qed.

Lemma str_drop_last_snoc (s : string) (c : ascii) :
  str_drop_last (s +:+ String c "") = s.
Proof.
  induction s as [|a s IH]; [done|].
  rewrite str_app_cons.
  change (str_drop_last (String a (s +:+ String c "")))
    with (match s +:+ String c "" with
          | "" => ""
          | _ => String a (str_drop_last (s +:+ String c ""))
          end).
  rewrite IH. by destruct s.
Qed.

Lemma hold_jid_fold (h : heap) ds : ∀ base,
  foldl (fun args dep => args +:+ (name (h !!! dep) +:+ ",")) base ds
  = base +:+ names_with_commas h ds.
Proof.
  induction ds as [|d ds IH]; intros base; [simpl; by rewrite str_app_nil_r|].
  cbn [foldl names_with_commas]. by rewrite IH, !str_app_assoc.
Qed.

Lemma names_with_commas_concat (h : heap) d ds :
  names_with_commas h (d :: ds)
  = String.concat "," ((fun d => name (h !!! d)) <$> d :: ds) +:+ ",".
Proof.
  revert d. induction ds as [|d' ds IH]; intros d; [done|].
  change (names_with_commas h (d :: d' :: ds))
    with (name (h !!! d) +:+ "," +:+ names_with_commas h (d' :: ds)).
  rewrite IH. csimpl. by rewrite !str_app_assoc.
Qed.

(** ** The submission invocation *)

Lemma spec_invocation_ext QSUB root_dir (h h' : heap) job sgeargs :
  (∀ j, static_eq (h !!! j) (h' !!! j)) →
  spec_invocation QSUB root_dir h job sgeargs
  = spec_invocation QSUB root_dir h' job sgeargs.
Proof.
  intros Hst. unfold spec_invocation, task_range, hold_directive, extra_arguments.
  destruct (Hst job) as (-> & _ & -> & _ & -> & -> & ->).
  assert (Hn : ∀ ds : list jobid,
             ((fun d => name (h !!! d)) <$> ds) = ((fun d => name (h' !!! d)) <$> ds)).
  { intros ds. apply list_fmap_ext. intros _ d _. apply Hst. }
  destruct (dependencies (h' !!! job)) as [|d ds]; [done|]. by rewrite Hn.
Qed.

Lemma static_eq_refl (j : Job) : static_eq j j.
Proof. by repeat split. Qed.

Lemma static_eq_trans (a b c : Job) : static_eq a b → static_eq b c → static_eq a c.
Proof.
  intros (? & ? & ? & ? & ? & ? & ?) (? & ? & ? & ? & ? & ? & ?).
  repeat split; congruence.
Qed.

Section InvocationFacts.

Variable QSUB : string.
Variable st : World → string → Z.
Variable root_dir : string.
Variable sgeargs : option string.

Lemma submit_safe_job_static w job j :
  static_eq (objects (submit_safe_job QSUB st root_dir sgeargs w job) !!! j)
            (objects w !!! j).
Proof.
  rewrite submit_safe_job_objects.
  destruct (decide (job = j)) as [->|]; by repeat split.
Qed.

(** The command line built by the source is the invocation of the
    specification. *)
Lemma qsubcmd_of_spec (h : heap) job :
  qsubcmd_of QSUB
    (update_job
       (set_out_err (os_path_join root_dir ("sge/stdout/" +:+ index (h !!! job)))
                    (os_path_join root_dir ("sge/stderr/" +:+ index (h !!! job))))
       job h) job sgeargs
  = spec_invocation QSUB root_dir h job sgeargs.
Proof.
  unfold qsubcmd_of, spec_invocation, task_range, hold_directive, extra_arguments.
  rewrite lookup_total_update_job, decide_True by done.
  cbn [name out err tasks dependencies scriptpath set_out_err str_of].
  set (h1 := update_job _ job h).
  assert (Hn : ∀ d, name (h1 !!! d) = name (h !!! d)).
  { intros d. unfold h1. rewrite lookup_total_update_job.
    by destruct (decide (job = d)) as [->|]. }
  assert (Hhold : ∀ args ds, ds ≠ [] →
            hold_jid h1 args ds
            = args +:+ "-hold_jid "
                   +:+ String.concat "," ((fun d => name (h !!! d)) <$> ds)).
  { intros args ds Hne. destruct ds as [|d ds]; [done|].
    unfold hold_jid. rewrite hold_jid_fold, names_with_commas_concat.
    rewrite <- !str_app_assoc. rewrite str_drop_last_snoc.
    rewrite !str_app_assoc. do 2 f_equal. f_equal.
    apply list_fmap_ext. intros _ x _. apply Hn. }
  destruct (dependencies (h !!! job)) as [|d ds] eqn:Hds.
  - cbn [length Nat.ltb Nat.leb]. 
    destruct (tasks (h !!! job)), sgeargs;
      rewrite ?str_app_assoc, ?str_app_nil_r; reflexivity.
  - replace (0 <? length (d :: ds))%nat with true by done.
    rewrite Hhold by done.
    destruct (tasks (h !!! job)), sgeargs;
      rewrite ?str_app_assoc, ?str_app_nil_r; reflexivity.
Qed.

Lemma submit_safe_job_calls w job :
  qsub_calls (submit_safe_job QSUB st root_dir sgeargs w job)
  = qsub_calls w ++ [spec_invocation QSUB root_dir (objects w) job sgeargs].
Proof.
  unfold submit_safe_job. cbn [os_system set_objects qsub_calls objects].
  by rewrite qsubcmd_of_spec.
Qed.

Lemma submit_safe_jobs_static jobs : ∀ w j,
  static_eq (objects (submit_safe_jobs QSUB st root_dir jobs sgeargs w) !!! j)
            (objects w !!! j).
Proof.
  unfold submit_safe_jobs. induction jobs as [|x l IH]; intros w j; simpl.
  - apply static_eq_refl.
  - eapply static_eq_trans; [apply IH|apply submit_safe_job_static].
Qed.

Lemma submit_safe_jobs_calls jobs : ∀ w,
  qsub_calls (submit_safe_jobs QSUB st root_dir jobs sgeargs w)
  = qsub_calls w
    ++ ((fun job => spec_invocation QSUB root_dir (objects w) job sgeargs) <$> jobs).
Proof.
  unfold submit_safe_jobs. induction jobs as [|x l IH]; intros w; csimpl.
  - by rewrite app_nil_r.
  - rewrite IH, submit_safe_job_calls, <- app_assoc. simpl. do 2 f_equal.
    apply list_fmap_ext. intros _ job _.
    apply spec_invocation_ext. intros j. apply submit_safe_job_static.
Qed.

End InvocationFacts.

(** C8: the command lines [submit_safe_jobs] hands to the system are, job
    by job, the invocation of the specification: base command, [-V], the
    job's name, [-cwd], the redirect paths keyed by the job's index, the
    task range [1:tasks] exactly for a [JobGroup], the hold directive with
    the comma-separated names of all dependencies exactly for a job that has
    some, and the caller's extra arguments. *)
Theorem submit_safe_jobs_invocation (QSUB : string) (st : World → string → Z)
    (root_dir : string) (jobs : list jobid) (sgeargs : option string)
    (w : World) :
  qsub_calls (submit_safe_jobs QSUB st root_dir jobs sgeargs w)
  = qsub_calls w
    ++ ((fun job => spec_invocation QSUB root_dir (objects w) job sgeargs) <$> jobs)
  ∧ ∀ j : Job,
      (isinstance_JobGroup j = true
       ↔ ∃ n, tasks j = Some n ∧ task_range j = "-t 1:" +:+ pretty n +:+ " ")
      ∧ (isinstance_JobGroup j = false ↔ task_range j = "")
      ∧ (dependencies j = [] ↔ hold_directive (objects w) j = "")
      ∧ (dependencies j ≠ [] →
         hold_directive (objects w) j
         = "-hold_jid "
           +:+ String.concat "," ((fun d => name (objects w !!! d)) <$> dependencies j)).
Proof.
  split; [apply submit_safe_jobs_calls|].
  intros j. unfold isinstance_JobGroup, task_range, hold_directive.
  split; [|split; [|split]].
  - destruct (tasks j) as [n|]; split; [eauto|done|done|].
    by intros (n & ? & _).
  - destruct (tasks j) as [n|]; split; done.
  - destruct (dependencies j); split; done.
  - by destruct (dependencies j).
Qed.

Lemma submit_safe_jobs_invocation_witness :
  qsub_calls (submit_safe_jobs "qsub" (fun _ _ => 0%Z) "out" [3] None
                               (world_of diamond))
  = ["qsub -V  -N D  -cwd  -o out/sge/stdout/3 -e out/sge/stderr/3 -hold_jid B,C"].
Proof.
  rewrite (proj1 (submit_safe_jobs_invocation "qsub" (fun _ _ => 0%Z) "out" [3]
                    None (world_of diamond))).
  vm_compute. reflexivity.
Defined.

Lemma spec_invocation_None_scriptpath QSUB root_dir (h : heap) job job' p :
  spec_invocation QSUB root_dir (update_job (set_scriptpath p) job' h) job None
  = spec_invocation QSUB root_dir h job None.
Proof.
  unfold spec_invocation, task_range, hold_directive, extra_arguments.
  set (h1 := update_job _ job' h).
  assert (Hn : ∀ ds : list jobid,
             ((fun d => name (h1 !!! d)) <$> ds) = ((fun d => name (h !!! d)) <$> ds)).
  { intros ds. apply list_fmap_ext. intros _ d _. unfold h1.
    rewrite lookup_total_update_job. by destruct (decide (job' = d)) as [->|]. }
  unfold h1 at 1 2 3 4 5. rewrite lookup_total_update_job.
  destruct (decide (job' = job)) as [->|]; cbn [set_scriptpath name index tasks dependencies];
    (destruct (dependencies (h !!! job)); [done|by rewrite Hn]).
Qed.

(** C10: with [sgeargs] left at [None] the command lines do not depend on
    any job's script path: giving a job another script path changes none of
    them, each is the invocation without the trailing arguments, and the
    script path enters only behind extra arguments that were supplied. *)
Theorem submit_safe_jobs_default_no_script (QSUB : string)
    (st : World → string → Z) (root_dir : string) (jobs : list jobid)
    (w : World) (job : jobid) (p extra : string) :
  qsub_calls (submit_safe_jobs QSUB st root_dir jobs None
                (set_objects (update_job (set_scriptpath p) job (objects w)) w))
  = qsub_calls (submit_safe_jobs QSUB st root_dir jobs None w)
  ∧ qsub_calls (submit_safe_jobs QSUB st root_dir jobs None w)
    = qsub_calls w
      ++ ((fun job =>
             let j := objects w !!! job in
             QSUB +:+ " -V " +:+ " -N " +:+ name j +:+ " " +:+ " -cwd "
               +:+ " -o " +:+ os_path_join root_dir ("sge/stdout/" +:+ index j)
               +:+ " -e " +:+ os_path_join root_dir ("sge/stderr/" +:+ index j)
               +:+ " " +:+ task_range j +:+ hold_directive (objects w) j) <$> jobs)
  ∧ qsubcmd_of QSUB (objects w) job (Some extra)
    = qsubcmd_of QSUB (objects w) job None
      +:+ " " +:+ extra +:+ " " +:+ str_of (scriptpath (objects w !!! job)).
Proof.
  split; [|split].
  - rewrite !submit_safe_jobs_calls. cbn [set_objects qsub_calls objects].
    f_equal. apply list_fmap_ext. intros _ x _.
    apply spec_invocation_None_scriptpath.
  - rewrite submit_safe_jobs_calls. f_equal. apply list_fmap_ext. intros _ x _.
    unfold spec_invocation, extra_arguments. by rewrite !str_app_nil_r.
  - reflexivity.
Qed.

(** C7: whatever exit status the submission commands have, the world after
    [submit_safe_jobs] is the one reached when every command succeeds, the
    call returns normally, and every job it was given shows [submitted]. *)
Theorem submit_safe_jobs_silent (QSUB : string) (st : World → string → Z)
    (root_dir : string) (jobs : list jobid) (sgeargs : option string)
    (w : World) :
  submit_safe_jobs QSUB st root_dir jobs sgeargs w
  = submit_safe_jobs QSUB (fun _ _ => 0%Z) root_dir jobs sgeargs w
  ∧ (∀ cmd w0, fst (os_system st cmd w0) = st w0 cmd)
  ∧ ∀ j, j ∈ jobs →
      submitted (objects (submit_safe_jobs QSUB st root_dir jobs sgeargs w) !!! j)
      = true.
Proof.
  split; [|split].
  - unfold submit_safe_jobs. revert w.
    induction jobs as [|x l IH]; intros w; simpl; [done|]. apply IH.
  - done.
  - intros j Hj. apply submit_safe_jobs_submitted. by left.
Qed.

Lemma submit_safe_jobs_silent_witness :
  submitted (objects (submit_safe_jobs "qsub" (fun _ _ => 1%Z) "out" [0] None
                                       (world_of diamond)) !!! 0)
  = true.
Proof.
  apply (proj2 (proj2 (submit_safe_jobs_silent "qsub" (fun _ _ => 1%Z) "out" [0]
                         None (world_of diamond)))).
  left.
Defined.

(** ** Job scripts *)

Lemma same_but_scriptpath_path root_dir a b :
  same_but_scriptpath a b →
  script_path_of root_dir a = script_path_of root_dir b
  ∧ script_text a = script_text b.
Proof.
  intros (Hn & _ & Hi & Hs & _). unfold script_path_of, script_text.
  by rewrite Hn, Hi, Hs.
Qed.

Lemma script_written_objects root_dir w job j :
  objects (script_written root_dir w job) !!! j
  = if decide (job = j)
    then set_scriptpath (script_path_of root_dir (objects w !!! job))
                        (objects w !!! job)
    else objects w !!! j.
Proof.
  unfold script_written. cbn [set_objects write_file objects].
  apply lookup_total_update_job.
Qed.

Lemma script_written_same root_dir w job j :
  same_but_scriptpath (objects (script_written root_dir w job) !!! j)
                      (objects w !!! j).
Proof.
  rewrite script_written_objects.
  destruct (decide (job = j)) as [->|]; by repeat split.
Qed.

Lemma scripts_written_snoc root_dir jobs x w :
  scripts_written root_dir (jobs ++ [x]) w
  = script_written root_dir (scripts_written root_dir jobs w) x.
Proof. unfold scripts_written. by rewrite foldl_app. Qed.

Lemma scripts_written_same root_dir jobs : ∀ w j,
  same_but_scriptpath (objects (scripts_written root_dir jobs w) !!! j)
                      (objects w !!! j).
Proof.
  induction jobs as [|x l IH] using rev_ind; intros w j.
  - by repeat split.
  - rewrite scripts_written_snoc.
    destruct (script_written_same root_dir (scripts_written root_dir l w) x j)
      as (? & ? & ? & ? & ? & ? & ? & ? & ?).
    destruct (IH w j) as (? & ? & ? & ? & ? & ? & ? & ? & ?).
    repeat split; congruence.
Qed.

Lemma scripts_written_scriptpath root_dir jobs : ∀ w job,
  job ∈ jobs →
  scriptpath (objects (scripts_written root_dir jobs w) !!! job)
  = Some (script_path_of root_dir (objects w !!! job)).
Proof.
  induction jobs as [|x l IH] using rev_ind; intros w job Hjob; [inversion Hjob|].
  rewrite scripts_written_snoc, script_written_objects.
  destruct (decide (x = job)) as [->|Hne].
  - cbn [set_scriptpath scriptpath]. f_equal.
    apply same_but_scriptpath_path, scripts_written_same.
  - apply elem_of_app in Hjob as [Hjob|Hjob%list_elem_of_singleton]; [|done].
    by apply IH.
Qed.

Lemma scripts_written_files root_dir jobs : ∀ w job,
  job ∈ jobs →
  (∀ job', job' ∈ jobs →
     script_path_of root_dir (objects w !!! job')
     = script_path_of root_dir (objects w !!! job) →
     script_text (objects w !!! job') = script_text (objects w !!! job)) →
  files (scripts_written root_dir jobs w)
    !! script_path_of root_dir (objects w !!! job)
  = Some (script_text (objects w !!! job)).
Proof.
  induction jobs as [|x l IH] using rev_ind; intros w job Hjob Hsame;
    [inversion Hjob|].
  rewrite scripts_written_snoc. unfold script_written at 1.
  cbn [set_objects write_file files objects].
  destruct (same_but_scriptpath_path root_dir _ _
              (scripts_written_same root_dir l w x)) as [-> ->].
  destruct (decide (script_path_of root_dir (objects w !!! x)
                    = script_path_of root_dir (objects w !!! job))) as [Heq|Hne].
  - rewrite Heq, lookup_insert_eq. f_equal. apply Hsame; [|done].
    apply elem_of_app. right. left.
  - rewrite lookup_insert_ne by done.
    apply elem_of_app in Hjob as [Hjob|Hjob%list_elem_of_singleton];
      [|by subst].
    apply IH; [done|]. intros job' Hjob'. apply Hsame.
    apply elem_of_app. by left.
Qed.

(** The loop of [build_job_scripts] returns exactly when the directory of
    every listed job's script exists; it then leaves [scripts_written]. *)
Lemma build_job_script_step root_dir job w :
  build_job_script root_dir job w
  = if bool_decide (script_dir_of root_dir (objects w !!! job) ∈ dirs w)
    then Returned (script_written root_dir w job)
    else Raised FileNotFoundError.
Proof. reflexivity. Qed.

Lemma build_job_scripts_run root_dir jobs : ∀ w,
  (build_job_scripts root_dir jobs w = Returned (scripts_written root_dir jobs w)
   ∧ ∀ job, job ∈ jobs → script_dir_of root_dir (objects w !!! job) ∈ dirs w)
  ∨ (build_job_scripts root_dir jobs w = Raised FileNotFoundError
     ∧ ∃ job, job ∈ jobs ∧ script_dir_of root_dir (objects w !!! job) ∉ dirs w).
Proof.
  unfold build_job_scripts, scripts_written.
  induction jobs as [|x l IH]; intros w.
  - left. split; [done|]. intros job Hjob. inversion Hjob.
  - cbn [for_each foldl]. rewrite build_job_script_step.
    destruct (bool_decide_reflect
                (script_dir_of root_dir (objects w !!! x) ∈ dirs w)) as [Hx|Hx].
    + cbn [mbind outcome_bind].
      assert (Hdir : ∀ job,
                script_dir_of root_dir (objects (script_written root_dir w x) !!! job)
                = script_dir_of root_dir (objects w !!! job)).
      { intros job. unfold script_dir_of.
        by destruct (script_written_same root_dir w x job) as (_ & _ & -> & _). }
      destruct (IH (script_written root_dir w x)) as [[-> Hall]|[-> Hex]].
      * left. split; [done|]. intros job [->|Hjob]%elem_of_cons; [done|].
        rewrite <- Hdir. by apply Hall.
      * right. split; [done|]. destruct Hex as (job & Hjob & Hno).
        exists job. split; [by right|]. by rewrite <- Hdir.
    + right. split; [done|]. exists x. split; [left|done].
Qed.

Lemma build_job_scripts_returned root_dir jobs w w' :
  build_job_scripts root_dir jobs w = Returned w' →
  w' = scripts_written root_dir jobs w
  ∧ ∀ job, job ∈ jobs → script_dir_of root_dir (objects w !!! job) ∈ dirs w.
Proof.
  destruct (build_job_scripts_run root_dir jobs w) as [[-> Hall]|[-> _]]; [|done].
  by intros [= <-].
Qed.

Lemma build_job_scripts_returns root_dir jobs w :
  (∀ job, job ∈ jobs → script_dir_of root_dir (objects w !!! job) ∈ dirs w) →
  build_job_scripts root_dir jobs w = Returned (scripts_written root_dir jobs w).
Proof.
  intros Hall.
  destruct (build_job_scripts_run root_dir jobs w)
    as [[-> _]|[_ (job & Hjob & Hno)]]; [done|].
  destruct Hno. by apply Hall.
Qed.

(** A text has one way only of being a first line and a rest. *)
Lemma first_line_unique (d d' x x' : string) :
  has_nl d = false → has_nl d' = false →
  d +:+ nl +:+ x = d' +:+ nl +:+ x' → d = d' ∧ x = x'.
Proof.
  assert (Hnl : ∀ y, nl +:+ y = String (Ascii.ascii_of_nat 10) y) by done.
  rewrite !Hnl.
  revert d'. induction d as [|c d IH]; intros [|c' d'] Hd Hd' Heq;
    rewrite ?str_app_cons, ?str_app_nil_l in Heq; cbn [has_nl] in Hd, Hd'.
  - by injection Heq as ->.
  - apply orb_false_iff in Hd' as [Hc' _]. apply bool_decide_eq_false in Hc'.
    injection Heq as Heq _. by destruct Hc'.
  - apply orb_false_iff in Hd as [Hc _]. apply bool_decide_eq_false in Hc.
    injection Heq as Heq _. by destruct Hc.
  - apply orb_false_iff in Hd as [_ Hd]. apply orb_false_iff in Hd' as [_ Hd'].
    injection Heq as -> Heq. by destruct (IH d' Hd Hd' Heq) as [-> ->].
Qed.

(** C9, as stated, fails: in the file written for job D of the diamond
    (command ["run d"]) the first line is the interpreter directive, but
    what follows it is not the command text, with or without a closing line
    feed: the line ["#$ -S /bin/bash"] stands between the two. *)
Lemma script_header_counterexample :
  ∃ w' text,
    build_job_scripts "out" [3] (build_directories "out" [3] (world_of diamond))
    = Returned w'
    ∧ files w' !! "out/sge/jobs/3/D" = Some text
    ∧ command (objects w' !!! 3) = "run d"
    ∧ ¬ ∃ directive,
          has_nl directive = false
          ∧ (text = directive +:+ nl +:+ "run d"
             ∨ text = directive +:+ nl +:+ "run d" +:+ nl).
Proof.
  eexists _, _. split; [by vm_compute|]. split; [by vm_compute|].
  split; [by vm_compute|].
  intros (directive & Hd & Htext).
  assert (Hfirst : ∀ rest,
            "#!/bin/sh" +:+ nl +:+ ("#$ -S /bin/bash" +:+ nl +:+ "run d" +:+ nl)
            = directive +:+ nl +:+ rest →
            rest = "#$ -S /bin/bash" +:+ nl +:+ "run d" +:+ nl).
  { intros rest Heq.
    by destruct (first_line_unique
                   "#!/bin/sh" directive
                   ("#$ -S /bin/bash" +:+ nl +:+ "run d" +:+ nl) rest
                   eq_refl Hd Heq) as [_ <-]. }
  destruct Htext as [Htext|Htext]; apply Hfirst in Htext; discriminate Htext.
Qed.

(** C9 (amended): when [build_job_scripts] returns, which takes the
    directory of every listed job's script to exist, a listed job's
    [scriptpath] is the path under [sge/jobs] made of its index and its
    name, and (no other listed job being written to that path) the file
    there holds the two directive lines ["#!/bin/sh"] and
    ["#$ -S /bin/bash"], then the job's script text as it is, then a line
    feed; the job's script and command are left as they were. *)
Theorem build_job_scripts_fidelity (root_dir : string) (jobs : list jobid)
    (w w' : World) (job : jobid) :
  build_job_scripts root_dir jobs w = Returned w' →
  job ∈ jobs →
  let j := objects w !!! job in
  os_path_join (os_path_join root_dir "sge/jobs") (index j) ∈ dirs w
  ∧ scriptpath (objects w' !!! job)
    = Some (os_path_join
              (os_path_join (os_path_join root_dir "sge/jobs") (index j))
              (name j))
  ∧ ((∀ job', job' ∈ jobs →
        script_path_of root_dir (objects w !!! job') = script_path_of root_dir j →
        job' = job) →
     files w' !! script_path_of root_dir j
     = Some ("#!/bin/sh" +:+ nl +:+ "#$ -S /bin/bash" +:+ nl +:+ script j +:+ nl))
  ∧ script (objects w' !!! job) = script j
  ∧ command (objects w' !!! job) = command j.
Proof.
  intros [-> Hdirs]%build_job_scripts_returned Hjob j.
  split; [by apply Hdirs|]. split; [|split; [|split]].
  - by apply scripts_written_scriptpath.
  - intros Huniq. apply (scripts_written_files root_dir jobs w job Hjob).
    intros job' Hjob' Hpath. by rewrite (Huniq job' Hjob' Hpath).
  - apply scripts_written_same.
  - apply scripts_written_same.
Qed.

Lemma build_job_scripts_fidelity_witness :
  ∃ w',
    build_job_scripts "out" [0; 1; 2; 3]
      (build_directories "out" [0; 1; 2; 3] (world_of diamond)) = Returned w'
    ∧ scriptpath (objects w' !!! 3) = Some "out/sge/jobs/3/D"
    ∧ files w' !! "out/sge/jobs/3/D"
      = Some ("#!/bin/sh" +:+ nl +:+ "#$ -S /bin/bash" +:+ nl +:+ "run d" +:+ nl).
Proof.
  destruct (build_job_scripts "out" [0; 1; 2; 3]
              (build_directories "out" [0; 1; 2; 3] (world_of diamond)))
    as [w'| |] eqn:Hrun; [|by vm_compute in Hrun..].
  exists w'. split; [done|].
  destruct (build_job_scripts_fidelity "out" [0; 1; 2; 3] _ w' 3 Hrun)
    as (_ & Hpath & Hfile & _).
  { do 3 right. left. }
  split; [exact Hpath|]. apply Hfile.
  intros job' Hjob'.
  repeat (apply elem_of_cons in Hjob' as [->|Hjob']; [by vm_compute|]).
  inversion Hjob'.
Defined.

(** ** The group compiler *)


Lemma join_jobcmds_unlines sublist : join_jobcmds sublist = unlines sublist.
Proof.
  unfold join_jobcmds.
  assert (H : ∀ acc, foldl (fun a jc => a +:+ (jc +:+ nl)) acc sublist
                     = acc +:+ unlines sublist); [|by rewrite H].
  induction sublist as [|x l IH]; intros acc; [by rewrite str_app_nil_r|].
  cbn [foldl unlines]. by rewrite IH, !str_app_assoc.
Qed.



Lemma split_seq_from_spec (A : Type) (size : nat) :
  0 < size → ∀ rounds (l : list A),
  length l ≤ rounds →
  concat (split_seq_from rounds l size) = l
  ∧ Forall (fun c => 0 < length c ≤ size) (split_seq_from rounds l size)
  ∧ length l ≤ length (split_seq_from rounds l size) * size < length l + size.
Proof.
  intros Hsize. induction rounds as [|rounds IH]; intros l Hlen.
  - destruct l; [|simpl in Hlen; lia]. simpl. repeat split; [constructor|lia..].
  - cbn [split_seq_from]. destruct (take size l) as [|x item] eqn:Htake.
    + destruct l as [|y l]; [|destruct size; [lia|done]].
      simpl. repeat split; [constructor|lia..].
    + rewrite <- Htake.
      destruct (IH (drop size l)) as (Hcat & Hall & Hcount);
        [rewrite length_drop; lia|].
      assert (Hlt : length (take size l) = size `min` length l)
        by apply length_take.
      assert (0 < length (take size l)) by (rewrite Htake; simpl; lia).
      rewrite length_drop in Hcount.
      split; [|split].
      * cbn [concat]. rewrite Hcat. apply take_drop.
      * constructor; [lia|done].
      * cbn [length]. clear -Hcount Hsize H Hlt.
        set (n := length (split_seq_from rounds (drop size l) size)) in *.
        destruct (decide (size ≤ length l)) as [Hge|Hsmall].
        -- replace (S n * size) with (n * size + size) by lia. lia.
        -- replace (length l - size) with 0 in Hcount by lia.
           assert (n = 0) as -> by (destruct n; [done|simpl in Hcount; lia]).
           lia.
Qed.

Lemma split_seq_in_range (A : Type) (iterable : list A) (size : Z) :
  (0 ≤ size ≤ sys_maxsize)%Z →
  split_seq iterable size
  = Returned (split_seq_from (length iterable) iterable (Z.to_nat size)).
Proof.
  intros [Hlo Hhi]. unfold split_seq.
  destruct (size <? 0)%Z eqn:Hneg; [lia|].
  destruct (sys_maxsize <? size)%Z eqn:Hbig; [lia|]. done.
Qed.

Lemma split_seq_returned (A : Type) (iterable : list A) (size : Z) chunks :
  split_seq iterable size = Returned chunks →
  chunks = split_seq_from (length iterable) iterable (Z.to_nat size).
Proof.
  unfold split_seq.
  destruct ((size <? 0) || (sys_maxsize <? size))%Z; [done|]. by intros [= <-].
Qed.

Lemma split_seq_from_lookup_ne (A : Type) (size rounds : nat) (l : list A) i chunk :
  split_seq_from rounds l size !! i = Some chunk → chunk ≠ [].
Proof.
  revert l i. induction rounds as [|rounds IH]; intros l i Hi; [done|].
  cbn [split_seq_from] in Hi.
  destruct (take size l) as [|x item] eqn:Htake; [done|].
  destruct i as [|i]; simpl in Hi; [by injection Hi as <-|]. by eapply IH.
Qed.

Lemma compile_sublists_imap jgprefix sublists : ∀ count jobgroups,
  compile_sublists jgprefix count sublists jobgroups
  = jobgroups ++ imap (fun i chunk => group_job jgprefix (count + S i) chunk) sublists.
Proof.
  induction sublists as [|sub rest IH]; intros count jobgroups.
  - simpl. by rewrite app_nil_r.
  - cbn [compile_sublists]. rewrite IH, imap_cons, <- app_assoc.
    f_equal. cbn [app]. f_equal.
    + unfold group_job. by rewrite join_jobcmds_unlines, Nat.add_1_r.
    + apply imap_ext. intros i chunk _. simpl. f_equal. lia.
Qed.



(** C3: called on the single command ["a"] with prefix ["p"] and group
    size 1, [compile_jobgroups_from_joblist] returns one job named ["p_1"]
    that holds the command, but the job is a plain [Job]: it is no
    [JobGroup] and carries no task count, where one group with task count 1
    is asked for. *)
Theorem compile_jobgroups_no_JobGroup :
  ∃ g, compile_jobgroups_from_joblist ["a"] "p" 1 = Returned [g]
       ∧ name g = "p_1" ∧ command g = "a" +:+ nl
       ∧ isinstance_JobGroup g = false ∧ tasks g = None ∧ tasks g ≠ Some 1.
Proof.
  eexists. split; [reflexivity|]. split; [reflexivity|]. split; [reflexivity|].
  split; [reflexivity|]. split; [reflexivity|discriminate].
Qed.



(** ** [run_dependency_graph] *)

Lemma log_deps_objects (ds : list jobid) : ∀ w,
  objects (foldl (fun w dep =>
                    logger_info (tab +:+ "[^ depends on: " +:+
                                 name (objects w !!! dep) +:+ "]") w) w ds)
  = objects w.
Proof. induction ds as [|d ds IH]; intros w; simpl; [done|]. by rewrite IH. Qed.

Lemma report_jobs_count joblist w :
  (report_jobs joblist w).1 = total_deps (objects w) joblist
  ∧ objects (report_jobs joblist w).2 = objects w.
Proof.
  unfold report_jobs.
  set (step := fun '(dep_count, w) job => _).
  assert (H : ∀ l dc (w0 : World),
             (foldl step (dc, w0) l).1 = dc + total_deps (objects w0) l
             ∧ objects (foldl step (dc, w0) l).2 = objects w0).
  { induction l as [|x l IH]; intros dc w0; [simpl; unfold total_deps; simpl; split; [lia|done]|].
    cbn [foldl]. unfold step at 2 4. cbn [logger_info objects].
    unfold total_deps. csimpl. fold (total_deps (objects w0) l). unfold deps at 1.
    destruct (length (dependencies (objects w0 !!! x)) =? 0)%nat eqn:Hlen.
    - apply Nat.eqb_eq in Hlen. rewrite Hlen.
      destruct (IH dc (logger_info (name (objects w0 !!! x) +:+ ": "
                                    +:+ command (objects w0 !!! x)) w0)) as [-> ->].
      done.
    - match goal with |- context [foldl step (?a, ?b) l] =>
        destruct (IH a b) as [-> ->] end.
      rewrite log_deps_objects. cbn [logger_info objects]. split; [lia|done]. }
  destruct (H joblist 0 (logger_info "Jobs to run with scheduler" w)) as [-> ->].
  done.
Qed.

Lemma for_each_Job_wait (l : list jobid) (w : World) :
  for_each Job_wait l w = Returned w.
Proof. induction l as [|x l IH]; [done|]. exact IH. Qed.

(** On strings the group compiler for entries of any type is
    [compile_jobgroups_from_joblist]. *)
Lemma compile_jobgroups_with_str joblist jgprefix G :
  compile_jobgroups_from_joblist_with str_plus_nl joblist jgprefix G
  = compile_jobgroups_from_joblist joblist jgprefix G.
Proof.
  unfold compile_jobgroups_from_joblist_with, compile_jobgroups_from_joblist.
  destruct (split_seq joblist G) as [sublists| |]; [|done..].
  cbn [mbind outcome_bind]. generalize 0 (@nil Job).
  assert (Hjoin : ∀ (l : list string) acc,
            for_each (fun jc a => s ← str_plus_nl jc; Returned (a +:+ s)) l acc
            = Returned (foldl (fun a jc => a +:+ (jc +:+ nl)) acc l)).
  { induction l as [|x l IH]; intros acc; [done|]. cbn. apply IH. }
  induction sublists as [|sub rest IH]; intros count jobgroups; [done|].
  cbn [compile_sublists_with compile_sublists].
  unfold join_jobcmds_with. rewrite Hjoin. cbn [mbind outcome_bind].
  apply IH.
Qed.

(** On job objects it returns only when there is nothing to compile. *)
Lemma compile_jobgroups_with_Job (joblist : list jobid) jgprefix G groups :
  compile_jobgroups_from_joblist_with Job_plus_nl joblist jgprefix G
  = Returned groups →
  groups = [].
Proof.
  unfold compile_jobgroups_from_joblist_with.
  destruct (split_seq joblist G) as [sublists| |] eqn:Hsplit; [|done..].
  cbn [mbind outcome_bind].
  destruct sublists as [|sub rest]; [by intros [= <-]|].
  apply split_seq_returned in Hsplit.
  assert (Hne : sub ≠ []).
  { apply (split_seq_from_lookup_ne _ (Z.to_nat G) (length joblist) joblist 0).
    by rewrite <- Hsplit. }
  destruct sub as [|jc sub]; [done|]. done.
Qed.

(** With a logger, a run that returns has handed on the flattened list
    itself when some job has a dependency; when none has, the group
    compiler was called on the flattened jobs and the run has handed on the
    objects of what it returned. *)
Lemma run_dependency_graph_logged QSUB st limit rounds jobdir jobgraph lg
    jgprefix sgegroupsize sgeargs w r :
  run_dependency_graph QSUB st limit rounds jobdir jobgraph (Some lg) jgprefix
                       sgegroupsize sgeargs w = Returned r →
  ∃ joblist,
    build_joblist limit (objects w) jobgraph = Returned joblist
    ∧ if (total_deps (objects w) joblist =? 0)%nat
      then ∃ groups,
          compile_jobgroups_from_joblist_with Job_plus_nl joblist
            jgprefix sgegroupsize = Returned groups
          ∧ r.1.1 = (alloc_jobs (objects w) groups).2
      else r.1.1 = joblist.
Proof.
  unfold run_dependency_graph.
  destruct (build_joblist limit (objects w) jobgraph) as [joblist| |]; [|done..].
  cbn [mbind outcome_bind]. intros Hrun. exists joblist. split; [done|].
  destruct (report_jobs_count joblist w) as [Hdc Hobj].
  destruct (report_jobs joblist w) as [dc w1]. cbn [fst snd] in Hdc, Hobj.
  subst dc. cbn [info mbind outcome_bind] in Hrun.
  destruct (total_deps (objects w) joblist =? 0)%nat.
  - cbn [logger_info objects] in Hrun. rewrite Hobj in Hrun.
    destruct (compile_jobgroups_from_joblist_with _ _ jgprefix sgegroupsize)
      as [groups| |]; [|done..].
    exists groups. split; [done|]. cbn [mbind outcome_bind] in Hrun.
    destruct (alloc_jobs (objects w) groups) as [h ids].
    cbn [mbind outcome_bind] in Hrun.
    match type of Hrun with context [for_each ?f ids ?w0] =>
      destruct (for_each f ids w0) as [w2| |] end; [|done..].
    cbn [mbind outcome_bind] in Hrun.
    destruct (build_and_submit_jobs _ _ _ _ _ _ _) as [[w3 waves]| |]; [|done..].
    cbn [mbind outcome_bind] in Hrun. rewrite for_each_Job_wait in Hrun.
    cbn [mbind outcome_bind] in Hrun. by injection Hrun as <-.
  - cbn [mbind outcome_bind] in Hrun.
    match type of Hrun with context [for_each ?f joblist ?w0] =>
      destruct (for_each f joblist w0) as [w2| |] end; [|done..].
    cbn [mbind outcome_bind] in Hrun.
    destruct (build_and_submit_jobs _ _ _ _ _ _ _) as [[w3 waves]| |]; [|done..].
    cbn [mbind outcome_bind] in Hrun. rewrite for_each_Job_wait in Hrun.
    cbn [mbind outcome_bind] in Hrun. by injection Hrun as <-.
Qed.

(** Both branches on the diamond, with a logger: the four jobs below D
    have dependencies and go on as they are; job A alone has none, the
    group compiler is called on the job object and the run ends in the
    [TypeError] of [jc + "\n"]. *)
Lemma run_dependency_graph_examples :
  (match run_dependency_graph "qsub" (fun _ _ => 0%Z) 10 10 "out" [3]
           (Some logging_Logger) "JG" 10000 None (world_of diamond) with
   | Returned (joblist, _, _) => Some joblist
   | _ => None
   end) = build_joblist_result (build_joblist 10 diamond [3])
  ∧ run_dependency_graph "qsub" (fun _ _ => 0%Z) 10 10 "out" [0]
       (Some logging_Logger) "JG" 10000 None (world_of diamond)
    = Raised TypeError.
Proof. split; by vm_compute. Qed.

Lemma build_joblist_outcome limit h roots :
  (∃ joblist, build_joblist limit h roots = Returned joblist)
  ∨ build_joblist limit h roots = Raised RecursionError.
Proof.
  unfold build_joblist. generalize (∅ : gset jobid).
  induction roots as [|x l IH]; intros s; simpl; [left; eauto|].
  destruct (populate_jobset_outcome limit h x s 1) as [[s' ->]| ->];
    simpl; [apply IH|by right].
Qed.

(** C4: called without a logger (the default, [logger=None]) the function
    never reaches the test of the dependency count: whatever the job graph,
    it raises, and on a graph that flattens it raises [AttributeError] at
    the first unguarded [logger.info]; a single job without dependencies is
    neither grouped nor submitted. *)
Theorem run_dependency_graph_no_logger (QSUB : string)
    (st : World → string → Z) (limit rounds : nat) (jobdir : string)
    (jobgraph : list jobid) (jgprefix : string) (sgegroupsize : Z)
    (sgeargs : option string) (w : World) :
  (run_dependency_graph QSUB st limit rounds jobdir jobgraph None jgprefix
                        sgegroupsize sgeargs w = Raised AttributeError
   ∨ run_dependency_graph QSUB st limit rounds jobdir jobgraph None jgprefix
                          sgegroupsize sgeargs w = Raised RecursionError)
  ∧ run_dependency_graph QSUB st 10 10 "out" [0] None "ANIm_SGE_JG" 10000 None
                         (world_of diamond) = Raised AttributeError.
Proof.
  split; [|by vm_compute].
  unfold run_dependency_graph.
  destruct (build_joblist_outcome limit (objects w) jobgraph) as [[l ->]| ->];
    [left|right]; done.
Qed.

(** * Further properties of the module *)

(** ** The recursion depth the resolver needs *)

Lemma for_each_populate_returns limit h depth (l : list jobid) :
  (∀ y, y ∈ l → ∀ s, ∃ s',
       populate_jobset limit h y s depth = Returned s'
       ∧ ∀ x, x ∈ s' ↔ x ∈ s ∨ rtc (depends_on h) y x) →
  ∀ s, ∃ s',
    for_each (fun j s => populate_jobset limit h j s depth) l s = Returned s'
    ∧ ∀ x, x ∈ s' ↔ x ∈ s ∨ ∃ y, y ∈ l ∧ rtc (depends_on h) y x.
Proof.
  induction l as [|y l IH]; intros Hl s.
  - exists s. split; [done|]. intros x. split; [auto|].
    intros [?|(? & Hin & _)]; [done|inversion Hin].
  - destruct (Hl y (list_elem_of_here y l) s) as (s1 & Hs1 & Hm1).
    destruct IH with (s := s1) as (s2 & Hs2 & Hm2).
    { intros z Hz. apply Hl. by right. }
    exists s2. simpl. rewrite Hs1. simpl. split; [done|].
    intros x. rewrite Hm2, Hm1. split.
    + intros [[?|?]|(z & ? & ?)]; [by left| |].
      * right. exists y. split; [left|done].
      * right. exists z. split; [by right|done].
    + intros [?|(z & [->|Hz]%elem_of_cons & ?)]; [by left; left|by left; right|].
      right. by exists z.
Qed.

Lemma populate_jobset_limit limit h : ∀ job jobset depth,
  (ht_le h job limit →
   ∃ s, populate_jobset limit h job jobset depth = Returned s
        ∧ ∀ x, x ∈ s ↔ x ∈ jobset ∨ rtc (depends_on h) job x)
  ∧ (ht_gt h job limit →
     populate_jobset limit h job jobset depth = Raised RecursionError).
Proof.
  induction limit as [|limit IH]; intros job jobset depth.
  - split; [intros Hle; by apply ht_le_0 in Hle|done].
  - split.
    + intros Hle. cbn [populate_jobset].
      destruct (length (deps h job) =? 0)%nat eqn:Hlen.
      * apply Nat.eqb_eq, nil_length_inv in Hlen.
        eexists. split; [done|]. intros x.
        rewrite elem_of_union, elem_of_singleton. split.
        -- intros [->|?]; [by right|by left].
        -- intros [?|Hr]; [by right|]. left. by eapply rtc_no_deps.
      * destruct (for_each_populate_returns limit h (depth + 1) (deps h job))
          with (s := {[job]} ∪ jobset) as (s & Hs & Hm).
        { intros y Hy s0. apply IH. by apply (proj1 (ht_le_S h job limit)). }
        exists s. split; [done|]. intros x.
        rewrite Hm, elem_of_union, elem_of_singleton. split.
        -- intros [[->|?]|(y & Hy & Hyx)]; [by right|by left|].
           right. by eapply rtc_l.
        -- intros [?|Hr]; [by left; right|].
           destruct Hr as [|j y z Hjy Hyz]; [by left; left|].
           right. by exists y.
    + intros (c & Hc & Hlt). cbn [populate_jobset].
      inversion Hc as [|? d c' Hjd Hdc]; subst; [simpl in Hlt; lia|].
      destruct (length (deps h job) =? 0)%nat eqn:Hlen.
      * apply Nat.eqb_eq, nil_length_inv in Hlen.
        unfold depends_on in Hjd. rewrite Hlen in Hjd. inversion Hjd.
      * apply for_each_populate_raises with d; [done|].
        intros s. apply IH. exists c'. split; [done|]. simpl in *. lia.
Qed.

Lemma diamond_depends_on a b :
  depends_on diamond a b
  ↔ (a = 1 ∧ b = 0) ∨ (a = 2 ∧ b = 0) ∨ (a = 3 ∧ b = 1) ∨ (a = 3 ∧ b = 2).
Proof.
  unfold depends_on, deps, diamond. split.
  - destruct a as [|[|[|[|a]]]].
    + vm_compute. inversion 1.
    + vm_compute. intros ->%list_elem_of_singleton. auto.
    + vm_compute. intros ->%list_elem_of_singleton. auto.
    + vm_compute. intros [-> | ->%list_elem_of_singleton]%elem_of_cons; auto.
    + rewrite !lookup_total_insert_ne by lia. rewrite lookup_total_empty.
      inversion 1.
  - intros [[-> ->]|[[-> ->]|[[-> ->]|[-> ->]]]]; vm_compute; set_solver.
Qed.

Lemma diamond_ht_le_3 : ht_le diamond 3 3.
Proof.
  apply ht_le_S. intros d Hd. apply ht_le_S. intros d' Hd'.
  apply ht_le_S. intros d'' Hd''.
  apply diamond_depends_on in Hd, Hd', Hd''. lia.
Qed.

Lemma diamond_ht_gt_2 : ht_gt diamond 3 2.
Proof.
  exists [1; 0]. split; [|simpl; lia].
  constructor; [apply diamond_depends_on; auto|].
  constructor; [apply diamond_depends_on; auto|constructor].
Qed.

(** X1: [build_joblist] returns the reachable jobs as soon as the
    recursion limit is at least the number of jobs on the longest dependency
    chain below a root, and fails with [RecursionError] when some chain
    below a root has more jobs than the limit, also on an acyclic graph. *)
Theorem build_joblist_recursion_limit (limit : nat) (h : heap)
    (roots : list jobid) :
  ((∀ r, r ∈ roots → ht_le h r limit) →
   ∃ joblist, build_joblist limit h roots = Returned joblist
              ∧ NoDup joblist
              ∧ ∀ j, j ∈ joblist ↔ reachable h roots j)
  ∧ ((∃ r, r ∈ roots ∧ ht_gt h r limit) →
     build_joblist limit h roots = Raised RecursionError).
Proof.
  split.
  - intros Hle. unfold build_joblist.
    destruct (for_each_populate_returns limit h 1 roots) with (s := (∅ : gset jobid))
      as (s & -> & Hm).
    { intros y Hy s0. by apply populate_jobset_limit, Hle. }
    exists (elements s). split; [done|]. split; [apply NoDup_elements|].
    intros j. rewrite elem_of_elements, Hm. unfold reachable. set_solver.
  - intros (r & Hr & Hgt). unfold build_joblist.
    rewrite for_each_populate_raises with (y := r); [done|done|].
    intros s. by apply populate_jobset_limit.
Qed.

Lemma build_joblist_recursion_limit_witness :
  (∃ joblist, build_joblist 3 diamond [3] = Returned joblist
              ∧ NoDup joblist
              ∧ ∀ j, j ∈ joblist ↔ reachable diamond [3] j)
  ∧ build_joblist 2 diamond [3] = Raised RecursionError.
Proof.
  split.
  - apply (proj1 (build_joblist_recursion_limit 3 diamond [3])).
    intros r ->%list_elem_of_singleton. apply diamond_ht_le_3.
  - apply (proj2 (build_joblist_recursion_limit 2 diamond [3])).
    exists 3. split; [left|apply diamond_ht_gt_2].
Defined.

(** ** The result depends on the set of roots only *)

(** X2: two collections with the same roots, in whatever order and however
    often each root is listed, flatten to the same jobs: the two lists
    returned have the same members, each of them once (the order of a list
    made from a set is left open). *)
Theorem build_joblist_roots_set (h : heap) (roots roots' : list jobid) :
  (∀ x, x ∈ roots ↔ x ∈ roots') →
  acyclic_from h roots →
  ∃ n, ∀ limit, n ≤ limit →
    ∃ joblist joblist',
      build_joblist limit h roots = Returned joblist
      ∧ build_joblist limit h roots' = Returned joblist'
      ∧ NoDup joblist ∧ NoDup joblist'
      ∧ (∀ j, j ∈ joblist ↔ j ∈ joblist')
      ∧ joblist ≡ₚ joblist'.
Proof.
  intros Hsame Hacy.
  assert (Hreach : ∀ j, reachable h roots j ↔ reachable h roots' j).
  { intros j. unfold reachable. split; intros (r & Hr & Hrj); exists r;
      (split; [by apply Hsame|done]). }
  destruct (build_joblist_reachable h roots Hacy) as (n1 & s1 & Hs1 & Hn1).
  destruct (build_joblist_reachable h roots') as (n2 & s2 & Hs2 & Hn2).
  { intros j Hj. apply Hacy. by apply Hreach. }
  assert (Hmem : ∀ j, j ∈ elements s1 ↔ j ∈ elements s2).
  { intros j. by rewrite !elem_of_elements, Hs1, Hs2, Hreach. }
  exists (n1 `max` n2). intros limit Hle. exists (elements s1), (elements s2).
  split; [apply Hn1; lia|]. split; [apply Hn2; lia|].
  split; [apply NoDup_elements|]. split; [apply NoDup_elements|].
  split; [done|]. apply NoDup_Permutation; [apply NoDup_elements..|done].
Qed.

Lemma build_joblist_roots_set_witness :
  ∃ n, ∀ limit, n ≤ limit →
    ∃ joblist joblist',
      build_joblist limit diamond [3; 1] = Returned joblist
      ∧ build_joblist limit diamond [1; 3; 3] = Returned joblist'
      ∧ NoDup joblist ∧ NoDup joblist'
      ∧ (∀ j, j ∈ joblist ↔ j ∈ joblist')
      ∧ joblist ≡ₚ joblist'.
Proof.
  apply (build_joblist_roots_set diamond [3; 1] [1; 3; 3]).
  - intros x. set_solver.
  - apply diamond_acyclic.
Defined.

(** ** The chunks of [split_seq] *)

Lemma split_seq_from_lookup (A : Type) (size : nat) :
  ∀ rounds (l : list A) i chunk,
    split_seq_from rounds l size !! i = Some chunk →
    chunk = take size (drop (i * size) l) ∧ chunk ≠ [].
Proof.
  induction rounds as [|rounds IH]; intros l i chunk Hi; [done|].
  cbn [split_seq_from] in Hi.
  destruct (take size l) as [|x item] eqn:Htake; [done|].
  destruct i as [|i]; simpl in Hi.
  - injection Hi as <-. change (0 * size) with 0. rewrite drop_0. by rewrite Htake.
  - apply IH in Hi as [-> Hne]. split; [|done].
    rewrite drop_drop. do 2 f_equal; lia.
Qed.

(** X3: for a size between 1 and [sys.maxsize] the chunks of [split_seq],
    put together, are the input; chunk number [i] (from 0) is the [size]
    items from position [i * size] on; no chunk is empty, and every chunk
    but the last holds exactly [size] items.  A size above [sys.maxsize]
    raises [ValueError]. *)
Theorem split_seq_chunks (A : Type) (iterable : list A) (size : Z) :
  ((0 < size ≤ sys_maxsize)%Z →
  ∃ chunks,
    split_seq iterable size = Returned chunks
    ∧ concat chunks = iterable
    ∧ ∀ i chunk, chunks !! i = Some chunk →
        chunk = take (Z.to_nat size) (drop (i * Z.to_nat size) iterable)
        ∧ 0 < length chunk
        ∧ (S i < length chunks → Z.of_nat (length chunk) = size))
  ∧ ((sys_maxsize < size)%Z → split_seq iterable size = Raised ValueError).
Proof.
  split; [|intros Hbig; unfold split_seq;
           destruct (size <? 0)%Z eqn:Hneg; [done|];
           destruct (sys_maxsize <? size)%Z eqn:Hlt; [done|lia]].
  intros Hsize. rewrite split_seq_in_range by lia.
  set (n := Z.to_nat size).
  set (chunks := split_seq_from (length iterable) iterable n).
  exists chunks. split; [done|].
  destruct (split_seq_from_spec A n ltac:(lia) (length iterable) iterable ltac:(done))
    as (Hcat & _ & _).
  split; [done|]. intros i chunk Hi.
  destruct (split_seq_from_lookup A n _ _ _ _ Hi) as [Hchunk Hne].
  split; [done|]. split; [destruct chunk; [done|simpl; lia]|].
  intros Hnext.
  destruct (lookup_lt_is_Some_2 chunks (S i) Hnext) as [next Hnx].
  destruct (split_seq_from_lookup A n _ _ _ _ Hnx) as [-> Hne'].
  assert (S i * n < length iterable).
  { destruct (decide (S i * n < length iterable)) as [|Hge]; [done|].
    rewrite drop_ge in Hne' by lia. by rewrite take_nil in Hne'. }
  subst chunk. rewrite length_take, length_drop. simpl in *. lia.
Qed.

Lemma split_seq_chunks_witness :
  ∃ chunks,
    split_seq ["a"; "b"; "c"; "d"; "e"] 2 = Returned chunks
    ∧ concat chunks = ["a"; "b"; "c"; "d"; "e"]
    ∧ ∀ i chunk, chunks !! i = Some chunk →
        chunk = take (Z.to_nat 2) (drop (i * Z.to_nat 2) ["a"; "b"; "c"; "d"; "e"])
        ∧ 0 < length chunk
        ∧ (S i < length chunks → Z.of_nat (length chunk) = 2%Z).
Proof.
  apply (proj1 (split_seq_chunks string ["a"; "b"; "c"; "d"; "e"] 2)).
  unfold sys_maxsize. lia.
Defined.

(** X4: a group size of 0 gives no chunk and no job at all, whatever the
    commands, so the commands are dropped without an error; a negative group
    size raises [ValueError], also for an empty list of commands. *)
Theorem compile_jobgroups_degenerate_size (joblist : list string)
    (jgprefix : string) (size : Z) :
  split_seq joblist 0 = Returned []
  ∧ compile_jobgroups_from_joblist joblist jgprefix 0 = Returned []
  ∧ ((size < 0)%Z →
     split_seq joblist size = Raised ValueError
     ∧ compile_jobgroups_from_joblist joblist jgprefix size = Raised ValueError).
Proof.
  assert (H0 : split_seq joblist 0 = Returned []).
  { unfold split_seq. simpl. by destruct joblist. }
  split; [done|]. split.
  - unfold compile_jobgroups_from_joblist. by rewrite H0.
  - intros Hneg. unfold compile_jobgroups_from_joblist, split_seq.
    destruct (size <? 0)%Z eqn:Hlt; [done|lia].
Qed.

Lemma compile_jobgroups_degenerate_size_witness :
  split_seq ["a"; "b"] (-1) = Raised ValueError
  ∧ compile_jobgroups_from_joblist ["a"; "b"] "JG" (-1) = Raised ValueError.
Proof.
  apply (proj2 (proj2 (compile_jobgroups_degenerate_size ["a"; "b"] "JG" (-1)))).
  lia.
Defined.

(** ** What [submit_safe_jobs] touches *)

Section SubmissionFrame.

Variable QSUB : string.
Variable st : World → string → Z.
Variable root_dir : string.
Variable sgeargs : option string.

Lemma submit_safe_job_frame w job :
  files (submit_safe_job QSUB st root_dir sgeargs w job) = files w
  ∧ dirs (submit_safe_job QSUB st root_dir sgeargs w job) = dirs w
  ∧ log (submit_safe_job QSUB st root_dir sgeargs w job) = log w.
Proof. done. Qed.

Lemma submit_safe_jobs_world jobs : ∀ w,
  files (submit_safe_jobs QSUB st root_dir jobs sgeargs w) = files w
  ∧ dirs (submit_safe_jobs QSUB st root_dir jobs sgeargs w) = dirs w
  ∧ log (submit_safe_jobs QSUB st root_dir jobs sgeargs w) = log w.
Proof.
  unfold submit_safe_jobs. induction jobs as [|x l IH]; intros w; [done|].
  cbn [foldl]. destruct (IH (submit_safe_job QSUB st root_dir sgeargs w x))
    as (-> & -> & ->). apply submit_safe_job_frame.
Qed.

Lemma submit_safe_jobs_other jobs : ∀ w j,
  j ∉ jobs →
  objects (submit_safe_jobs QSUB st root_dir jobs sgeargs w) !!! j
  = objects w !!! j.
Proof.
  unfold submit_safe_jobs. induction jobs as [|x l IH]; intros w j Hj; [done|].
  apply not_elem_of_cons in Hj as [Hne Hj]. cbn [foldl].
  rewrite IH by done. rewrite submit_safe_job_objects.
  by rewrite decide_False by done.
Qed.

(** The object of a job after its submission. *)
Lemma submit_safe_jobs_listed jobs : ∀ w j,
  j ∈ jobs →
  objects (submit_safe_jobs QSUB st root_dir jobs sgeargs w) !!! j
  = set_submitted true
      (set_out_err
         (os_path_join root_dir ("sge/stdout/" +:+ index (objects w !!! j)))
         (os_path_join root_dir ("sge/stderr/" +:+ index (objects w !!! j)))
         (objects w !!! j)).
Proof.
  unfold submit_safe_jobs. induction jobs as [|x l IH]; intros w j Hj;
    [inversion Hj|].
  cbn [foldl]. destruct (decide (j ∈ l)) as [Hl|Hl].
  - rewrite IH by done. rewrite submit_safe_job_objects.
    by destruct (decide (x = j)) as [->|].
  - apply elem_of_cons in Hj as [->|Hj]; [|done].
    fold (submit_safe_jobs QSUB st root_dir l sgeargs
            (submit_safe_job QSUB st root_dir sgeargs w x)).
    rewrite submit_safe_jobs_other by done.
    rewrite submit_safe_job_objects. by rewrite decide_True.
Qed.

End SubmissionFrame.

(** X5: [submit_safe_jobs] writes no file, makes no directory and logs
    nothing; it runs one command per listed job; a job that is not listed
    keeps its object as it is, and a listed job comes out with [out] and
    [err] set to the paths keyed by its index and [submitted] set, all
    other attributes as before. *)
Theorem submit_safe_jobs_frame (QSUB : string) (st : World → string → Z)
    (root_dir : string) (jobs : list jobid) (sgeargs : option string)
    (w : World) :
  let w' := submit_safe_jobs QSUB st root_dir jobs sgeargs w in
  files w' = files w ∧ dirs w' = dirs w ∧ log w' = log w
  ∧ length (qsub_calls w') = length (qsub_calls w) + length jobs
  ∧ (∀ j, j ∉ jobs → objects w' !!! j = objects w !!! j)
  ∧ (∀ j, j ∈ jobs →
       objects w' !!! j
       = set_submitted true
           (set_out_err
              (os_path_join root_dir ("sge/stdout/" +:+ index (objects w !!! j)))
              (os_path_join root_dir ("sge/stderr/" +:+ index (objects w !!! j)))
              (objects w !!! j))).
Proof.
  intros w'. unfold w'.
  destruct (submit_safe_jobs_world QSUB st root_dir sgeargs jobs w) as (-> & -> & ->).
  split; [done|]. split; [done|]. split; [done|]. split; [|split].
  - by rewrite submit_safe_jobs_calls, length_app, length_fmap.
  - intros j Hj. by apply submit_safe_jobs_other.
  - intros j Hj. by apply submit_safe_jobs_listed.
Qed.

Lemma submit_safe_jobs_frame_witness :
  objects (submit_safe_jobs "qsub" (fun _ _ => 0%Z) "out" [0] None
                            (world_of diamond)) !!! 3
  = diamond !!! 3
  ∧ out (objects (submit_safe_jobs "qsub" (fun _ _ => 0%Z) "out" [0] None
                                   (world_of diamond)) !!! 0)
    = Some "out/sge/stdout/0".
Proof.
  destruct (submit_safe_jobs_frame "qsub" (fun _ _ => 0%Z) "out" [0] None
              (world_of diamond)) as (_ & _ & _ & _ & Hother & Hlisted).
  split.
  - apply Hother. set_solver.
  - rewrite Hlisted by set_solver. reflexivity.
Defined.

(** ** The submission loop, whatever the input *)

Lemma list_remove_perm x l :
  x ∈ l → ∃ l', list_remove x l = Returned l' ∧ l ≡ₚ x :: l'.
Proof.
  induction l as [|a l IH]; intros Hx; [inversion Hx|]. simpl.
  destruct (decide (a = x)) as [->|Hne]; [by exists l|].
  apply elem_of_cons in Hx as [->|Hx]; [done|].
  destruct (IH Hx) as (l' & -> & Hperm). simpl. exists (a :: l').
  split; [done|]. rewrite Hperm. apply Permutation_swap.
Qed.

Lemma for_each_list_remove_perm sub : ∀ l,
  NoDup sub → (∀ x, x ∈ sub → x ∈ l) →
  ∃ l', for_each list_remove sub l = Returned l' ∧ l ≡ₚ sub ++ l'.
Proof.
  induction sub as [|x sub IH]; intros l Hnd Hin; simpl; [by exists l|].
  apply NoDup_cons in Hnd as [Hx Hnd].
  destruct (list_remove_perm x l) as (l1 & -> & Hperm1); [apply Hin; left|].
  simpl. destruct (IH l1 Hnd) as (l' & -> & Hperm).
  { intros y Hy. assert (y ∈ x :: l1) as [->|?]%elem_of_cons; [|done..].
    rewrite <- Hperm1. apply Hin. by right. }
  exists l'. split; [done|]. by rewrite Hperm1, Hperm.
Qed.

Lemma extract_submittable_remove (h : heap) waiting :
  ∃ waiting',
    for_each list_remove (extract_submittable_jobs h waiting) waiting
    = Returned waiting'
    ∧ waiting ≡ₚ extract_submittable_jobs h waiting ++ waiting'.
Proof.
  apply for_each_list_remove_perm; [apply extract_submittable_NoDup|].
  intros x Hx. by apply extract_submittable_elem_of in Hx as [? _].
Qed.

Section LoopRun.

Variable QSUB : string.
Variable st : World → string → Z.
Variable root_dir : string.
Variable sgeargs : option string.

(** What a run of the loop that returns has done. *)
Lemma submit_jobs_loop_run rounds : ∀ waiting w,
  submit_jobs_loop QSUB st rounds root_dir sgeargs waiting w [] = Unfinished
  ∨ ∃ w' waves,
      submit_jobs_loop QSUB st rounds root_dir sgeargs waiting w []
      = Returned (w', waves)
      ∧ waiting ≡ₚ concat waves
      ∧ files w' = files w ∧ dirs w' = dirs w ∧ log w' = log w
      ∧ qsub_calls w'
        = qsub_calls w
          ++ ((fun job => spec_invocation QSUB root_dir (objects w) job sgeargs)
                <$> concat waves)
      ∧ (∀ j, static_eq (objects w' !!! j) (objects w !!! j))
      ∧ (∀ j, submitted (objects w' !!! j) = true
              ↔ j ∈ waiting ∨ submitted (objects w !!! j) = true)
      ∧ (∀ j, j ∉ waiting → objects w' !!! j = objects w !!! j).
Proof.
  assert (Hnil : ∀ rounds w,
            ∃ w' waves,
              submit_jobs_loop QSUB st rounds root_dir sgeargs [] w []
              = Returned (w', waves)
              ∧ [] ≡ₚ concat waves
              ∧ files w' = files w ∧ dirs w' = dirs w ∧ log w' = log w
              ∧ qsub_calls w'
                = qsub_calls w
                  ++ ((fun job => spec_invocation QSUB root_dir (objects w) job sgeargs)
                        <$> concat waves)
              ∧ (∀ j, static_eq (objects w' !!! j) (objects w !!! j))
              ∧ (∀ j, submitted (objects w' !!! j) = true
                      ↔ j ∈ [] ∨ submitted (objects w !!! j) = true)
              ∧ (∀ j, j ∉ [] → objects w' !!! j = objects w !!! j)).
  { intros r w. exists w, []. split; [by destruct r|].
    repeat split; try done.
    - simpl. by rewrite app_nil_r.
    - auto.
    - intros [Hin|?]; [inversion Hin|done]. }
  induction rounds as [|rounds IH]; intros waiting w.
  - destruct waiting as [|j0 l]; [right; apply Hnil|by left].
  - destruct waiting as [|j0 l] eqn:Hw; [right; apply Hnil|].
    rewrite <- Hw. assert (Hpos : (0 <? length waiting)%nat = true) by (by subst).
    cbn [submit_jobs_loop]. rewrite Hpos.
    set (submittable := extract_submittable_jobs (objects w) waiting).
    set (w1 := submit_safe_jobs QSUB st root_dir submittable sgeargs w).
    destruct (extract_submittable_remove (objects w) waiting)
      as (waiting' & Hrem & Hperm).
    fold submittable in Hrem, Hperm. rewrite Hrem. cbn [mbind outcome_bind].
    rewrite submit_jobs_loop_waves.
    destruct (IH waiting' w1)
      as [->|(w' & waves & -> & Hperm' & Hf & Hd & Hl & Hcalls & Hstat & Hsub & Hother)];
      [by left|right].
    exists w', (submittable :: waves). cbn [mbind outcome_bind app concat].
    split; [done|].
    destruct (submit_safe_jobs_world QSUB st root_dir sgeargs submittable w)
      as (Hf1 & Hd1 & Hl1).
    assert (Hstat1 : ∀ j, static_eq (objects w1 !!! j) (objects w !!! j))
      by apply submit_safe_jobs_static.
    split; [by rewrite Hperm, Hperm'|].
    split; [by rewrite Hf|]. split; [by rewrite Hd|]. split; [by rewrite Hl|].
    split; [|split; [|split]].
    + rewrite Hcalls. unfold w1 at 1. rewrite submit_safe_jobs_calls.
      rewrite fmap_app, <- app_assoc. do 2 f_equal.
      apply list_fmap_ext. intros _ job _. by apply spec_invocation_ext.
    + intros j. eapply static_eq_trans; [apply Hstat|apply Hstat1].
    + intros j. rewrite Hsub. unfold w1. rewrite submit_safe_jobs_submitted.
      rewrite (elem_of_Permutation_proper _ _ _ Hperm), elem_of_app.
      fold submittable. tauto.
    + intros j Hj. rewrite (elem_of_Permutation_proper _ _ _ Hperm) in Hj.
      apply not_elem_of_app in Hj as [Hj1 Hj2].
      rewrite Hother by done. by apply submit_safe_jobs_other.
Qed.

End LoopRun.

(** X6: [submit_jobs] never raises: [waiting.remove] always finds its
    job.  A run either has not finished or returns, and when it returns the
    waves, put together, are the listed jobs in some order: every listed
    occurrence of a job is submitted exactly once. *)
Theorem submit_jobs_never_raises (QSUB : string) (st : World → string → Z)
    (rounds : nat) (root_dir : string) (jobs : list jobid)
    (sgeargs : option string) (w : World) :
  submit_jobs QSUB st rounds root_dir jobs sgeargs w = Unfinished
  ∨ ∃ w' waves,
      submit_jobs QSUB st rounds root_dir jobs sgeargs w = Returned (w', waves)
      ∧ jobs ≡ₚ concat waves.
Proof.
  unfold submit_jobs.
  destruct (submit_jobs_loop_run QSUB st root_dir sgeargs rounds jobs w)
    as [->|(w' & waves & -> & Hperm & _)]; [by left|right; eauto].
Qed.

(** X7: after a run of [submit_jobs] that returns, the jobs that show
    [submitted] are the listed ones and those that showed it before (the
    flag never goes back); the objects of jobs that are not listed are
    untouched; name, command, index, script, dependencies, script path and
    tasks of every job are as before; no file, directory or log line was
    added. *)
Theorem submit_jobs_state (QSUB : string) (st : World → string → Z)
    (rounds : nat) (root_dir : string) (jobs : list jobid)
    (sgeargs : option string) (w w' : World) (waves : list (list jobid)) :
  submit_jobs QSUB st rounds root_dir jobs sgeargs w = Returned (w', waves) →
  (∀ j, submitted (objects w' !!! j) = true
        ↔ j ∈ jobs ∨ submitted (objects w !!! j) = true)
  ∧ (∀ j, j ∉ jobs → objects w' !!! j = objects w !!! j)
  ∧ (∀ j, static_eq (objects w' !!! j) (objects w !!! j))
  ∧ files w' = files w ∧ dirs w' = dirs w ∧ log w' = log w.
Proof.
  unfold submit_jobs. intros Hrun.
  destruct (submit_jobs_loop_run QSUB st root_dir sgeargs rounds jobs w)
    as [Hun|(w2 & waves2 & Hret & _ & Hf & Hd & Hl & _ & Hstat & Hsub & Hother)];
    [congruence|].
  rewrite Hret in Hrun. injection Hrun as <- <-. done.
Qed.

Lemma submit_jobs_state_witness :
  ∃ w' waves,
    submit_jobs "qsub" (fun _ _ => 0%Z) 3 "out" [3; 2; 1; 0] None
                (world_of diamond) = Returned (w', waves)
    ∧ (∀ j, submitted (objects w' !!! j) = true
            ↔ j ∈ [3; 2; 1; 0] ∨ submitted (diamond !!! j) = true)
    ∧ (∀ j, j ∉ [3; 2; 1; 0] → objects w' !!! j = diamond !!! j)
    ∧ (∀ j, static_eq (objects w' !!! j) (diamond !!! j))
    ∧ files w' = ∅ ∧ dirs w' = ∅ ∧ log w' = [].
Proof.
  destruct (submit_jobs "qsub" (fun _ _ => 0%Z) 3 "out" [3; 2; 1; 0] None
                        (world_of diamond)) as [[w' waves]| |] eqn:Hrun;
    [|by vm_compute in Hrun..].
  exists w', waves. split; [done|].
  apply (submit_jobs_state _ _ _ _ _ _ _ _ _ Hrun).
Defined.

(** X8: the command lines a returning run of [submit_jobs] has given to
    the system are the invocations of the jobs, wave after wave, read from
    the store as it was at the start; there is one per listed job, also for
    a job that showed [submitted] already. *)
Theorem submit_jobs_commands (QSUB : string) (st : World → string → Z)
    (rounds : nat) (root_dir : string) (jobs : list jobid)
    (sgeargs : option string) (w w' : World) (waves : list (list jobid)) :
  submit_jobs QSUB st rounds root_dir jobs sgeargs w = Returned (w', waves) →
  qsub_calls w'
  = qsub_calls w
    ++ ((fun job => spec_invocation QSUB root_dir (objects w) job sgeargs)
          <$> concat waves)
  ∧ length (qsub_calls w') = length (qsub_calls w) + length jobs.
Proof.
  unfold submit_jobs. intros Hrun.
  destruct (submit_jobs_loop_run QSUB st root_dir sgeargs rounds jobs w)
    as [Hun|(w2 & waves2 & Hret & Hperm & _ & _ & _ & Hcalls & _)];
    [congruence|].
  rewrite Hret in Hrun. injection Hrun as <- <-. split; [done|].
  by rewrite Hcalls, length_app, length_fmap, Hperm.
Qed.

Lemma submit_jobs_commands_witness :
  ∃ w' waves,
    submit_jobs "qsub" (fun _ _ => 0%Z) 3 "out" [3; 2; 1; 0] None
                (world_of diamond) = Returned (w', waves)
    ∧ qsub_calls w'
      = [] ++ ((fun job => spec_invocation "qsub" "out" diamond job None)
                 <$> concat waves)
    ∧ length (qsub_calls w') = 0 + 4.
Proof.
  destruct (submit_jobs "qsub" (fun _ _ => 0%Z) 3 "out" [3; 2; 1; 0] None
                        (world_of diamond)) as [[w' waves]| |] eqn:Hrun;
    [|by vm_compute in Hrun..].
  exists w', waves. split; [done|].
  apply (submit_jobs_commands _ _ _ _ _ _ _ _ _ Hrun).
Defined.

(** ** A submission loop that never ends *)

Section Blocked.

Variable QSUB : string.
Variable st : World → string → Z.
Variable root_dir : string.
Variable sgeargs : option string.
Variable blocked : list jobid.

Lemma submit_jobs_loop_blocked rounds : ∀ waiting w,
  blocked ≠ [] →
  (∀ j, j ∈ blocked →
     j ∈ waiting
     ∧ ∃ d, d ∈ deps (objects w) j
            ∧ submitted (objects w !!! d) = false
            ∧ (d ∈ blocked ∨ d ∉ waiting)) →
  submit_jobs_loop QSUB st rounds root_dir sgeargs waiting w [] = Unfinished.
Proof.
  induction rounds as [|rounds IH]; intros waiting w Hne Hblocked.
  - destruct blocked as [|b bl] eqn:Hb; [done|].
    destruct (Hblocked b) as [Hin _]; [left|].
    destruct waiting; [inversion Hin|done].
  - assert (Hpos : (0 <? length waiting)%nat = true).
    { destruct blocked as [|b bl] eqn:Hb; [done|].
      destruct (Hblocked b) as [Hin _]; [left|].
      destruct waiting; [inversion Hin|done]. }
    cbn [submit_jobs_loop]. rewrite Hpos.
    set (submittable := extract_submittable_jobs (objects w) waiting).
    destruct (extract_submittable_remove (objects w) waiting)
      as (waiting' & Hrem & Hperm).
    fold submittable in Hrem, Hperm. rewrite Hrem. cbn [mbind outcome_bind].
    rewrite submit_jobs_loop_waves.
    assert (Hnot : ∀ j, j ∈ blocked → j ∉ submittable).
    { intros j Hj Hin. destruct (Hblocked j Hj) as (_ & d & Hd & Hun & _).
      apply extract_submittable_elem_of in Hin as [_ Hall].
      rewrite (Hall d Hd) in Hun. done. }
    rewrite IH; [done|done|].
    intros j Hj. destruct (Hblocked j Hj) as (Hw & d & Hd & Hun & Hwhere).
    split.
    + rewrite (elem_of_Permutation_proper _ _ _ Hperm), elem_of_app in Hw.
      destruct Hw as [Hw|Hw]; [|done]. by apply Hnot in Hw.
    + exists d. rewrite submit_safe_jobs_deps. split; [done|]. split.
      * apply not_true_is_false. rewrite submit_safe_jobs_submitted.
        intros [Hin|Htrue]; [|congruence].
        destruct Hwhere as [Hb|Hnw]; [by apply (Hnot d)|].
        apply Hnw. by apply extract_submittable_elem_of in Hin as [? _].
      * destruct Hwhere as [Hb|Hnw]; [by left|right].
        intros Hin. apply Hnw.
        rewrite (elem_of_Permutation_proper _ _ _ Hperm), elem_of_app. by right.
Qed.

End Blocked.

(** X9: when some listed jobs each wait for a dependency that is not
    submitted and is either one of them or not listed at all (a job of a
    dependency cycle, or a job whose dependency was left out of the list),
    the loop of [submit_jobs] never ends: no number of iterations lets it
    return. *)
Theorem submit_jobs_blocked (QSUB : string) (st : World → string → Z)
    (root_dir : string) (jobs blocked : list jobid) (sgeargs : option string)
    (w : World) :
  blocked ≠ [] →
  (∀ j, j ∈ blocked →
     j ∈ jobs
     ∧ ∃ d, d ∈ deps (objects w) j
            ∧ submitted (objects w !!! d) = false
            ∧ (d ∈ blocked ∨ d ∉ jobs)) →
  ∀ rounds, submit_jobs QSUB st rounds root_dir jobs sgeargs w = Unfinished.
Proof.
  intros Hne Hblocked rounds. unfold submit_jobs.
  by apply submit_jobs_loop_blocked with blocked.
Qed.

Lemma submit_jobs_blocked_witness :
  submit_jobs "qsub" (fun _ _ => 0%Z) 7 "out" [3; 0] None (world_of diamond)
  = Unfinished
  ∧ submit_jobs "qsub" (fun _ _ => 0%Z) 7 "out" [0] None (world_of self_loop)
    = Unfinished.
Proof.
  split.
  - apply (submit_jobs_blocked "qsub" (fun _ _ => 0%Z) "out" [3; 0] [3] None
             (world_of diamond)); [done|].
    intros j ->%list_elem_of_singleton. split; [left|].
    exists 1. split; [by apply diamond_depends_on; auto|].
    split; [reflexivity|]. right. set_solver.
  - apply (submit_jobs_blocked "qsub" (fun _ _ => 0%Z) "out" [0] [0] None
             (world_of self_loop)); [done|].
    intros j ->%list_elem_of_singleton. split; [left|].
    exists 0. split; [vm_compute; left|]. split; [reflexivity|]. left. left.
Defined.

(** ** Directories *)

Lemma endswith_sep_app (s t : string) :
  t ≠ "" → endswith_sep (s +:+ t) = endswith_sep t.
Proof.
  intros Ht. induction s as [|c s IH]; [done|].
  rewrite str_app_cons. cbn [endswith_sep]. rewrite IH.
  destruct (s +:+ t) eqn:Hst; [|done].
  destruct s; [done|discriminate].
Qed.

Lemma os_path_join_relative a b :
  startswith_sep b = false → os_path_join a b = with_sep a +:+ b.
Proof.
  intros Hb. unfold os_path_join, with_sep. rewrite Hb.
  destruct (bool_decide (a = "") || endswith_sep a); [done|].
  by rewrite str_app_assoc.
Qed.

Lemma with_sep_app a (b : string) :
  b ≠ "" → endswith_sep b = false → with_sep (a +:+ b) = a +:+ b +:+ "/".
Proof.
  intros Hne Hend. unfold with_sep. rewrite endswith_sep_app, Hend by done.
  rewrite bool_decide_eq_false_2; [by rewrite str_app_assoc|].
  destruct a; [done|discriminate].
Qed.

(** Joining in two steps is joining at once. *)
Lemma os_path_join_nested a (b c : string) :
  b ≠ "" → startswith_sep b = false → endswith_sep b = false →
  startswith_sep c = false →
  os_path_join (os_path_join a b) c = os_path_join a (b +:+ "/" +:+ c).
Proof.
  intros Hne Hb Hend Hc.
  rewrite (os_path_join_relative a b) by done.
  rewrite (os_path_join_relative _ c) by done.
  rewrite with_sep_app by done.
  rewrite os_path_join_relative; [by rewrite !str_app_assoc|].
  by destruct b.
Qed.

Lemma build_directories_fold (jobdir stdout_dir stderr_dir : string) jobs : ∀ w,
  let w' := foldl (fun w job =>
                     let idx := index (objects w !!! job) in
                     mkdir (os_path_join stderr_dir idx)
                       (mkdir (os_path_join stdout_dir idx)
                          (mkdir (os_path_join jobdir idx) w)))
                  w jobs in
  objects w' = objects w ∧ files w' = files w
  ∧ qsub_calls w' = qsub_calls w ∧ log w' = log w
  ∧ dirs w ⊆ dirs w'
  ∧ ∀ job, job ∈ jobs →
      os_path_join jobdir (index (objects w !!! job)) ∈ dirs w'
      ∧ os_path_join stdout_dir (index (objects w !!! job)) ∈ dirs w'
      ∧ os_path_join stderr_dir (index (objects w !!! job)) ∈ dirs w'.
Proof.
  induction jobs as [|x l IH]; intros w; cbn [foldl].
  - split; [done|]. split; [done|]. split; [done|]. split; [done|].
    split; [done|]. intros job Hjob. inversion Hjob.
  - set (w1 := mkdir _ (mkdir _ (mkdir _ w))).
    destruct (IH w1) as (Ho & Hf & Hc & Hl & Hsub & Hjobs).
    cbn zeta in *. rewrite Ho, Hf, Hc, Hl.
    split; [done|]. split; [done|]. split; [done|]. split; [done|]. split.
    + etrans; [|exact Hsub]. unfold w1, mkdir. simpl. set_solver.
    + intros job [->|Hjob]%elem_of_cons.
      * repeat split; apply Hsub; unfold w1, mkdir; simpl; set_solver.
      * by apply Hjobs.
Qed.

(** X10: [build_directories] (file-system errors aside) only adds
    directories: jobs, files, commands and log are untouched and the
    directories that were there remain.  Afterwards the root, [sge] and its
    [jobs], [stdout] and [stderr] exist, and for every listed job whose
    index does not begin with a slash so do the directory
    [build_job_scripts] writes its script into and the two paths
    [submit_safe_jobs] passes for its output and errors. *)
Theorem build_directories_made (root_dir : string) (jobs : list jobid)
    (w : World) :
  let w' := build_directories root_dir jobs w in
  objects w' = objects w ∧ files w' = files w
  ∧ qsub_calls w' = qsub_calls w ∧ log w' = log w
  ∧ dirs w ⊆ dirs w'
  ∧ root_dir ∈ dirs w'
  ∧ os_path_join root_dir "sge" ∈ dirs w'
  ∧ os_path_join root_dir "sge/jobs" ∈ dirs w'
  ∧ os_path_join root_dir "sge/stdout" ∈ dirs w'
  ∧ os_path_join root_dir "sge/stderr" ∈ dirs w'
  ∧ ∀ job, job ∈ jobs →
      let idx := index (objects w !!! job) in
      startswith_sep idx = false →
      os_path_join (os_path_join root_dir "sge/jobs") idx ∈ dirs w'
      ∧ os_path_join root_dir ("sge/stdout/" +:+ idx) ∈ dirs w'
      ∧ os_path_join root_dir ("sge/stderr/" +:+ idx) ∈ dirs w'.
Proof.
  intros w'. unfold w', build_directories.
  set (sge_dir := os_path_join root_dir "sge").
  set (base := mkdir _ (mkdir _ (mkdir _ (mkdir sge_dir (mkdir root_dir w))))).
  destruct (build_directories_fold (os_path_join sge_dir "jobs")
              (os_path_join sge_dir "stdout") (os_path_join sge_dir "stderr")
              jobs base) as (Ho & Hf & Hc & Hl & Hsub & Hjobs).
  cbn zeta in *. set (wf := foldl _ base jobs) in *. rewrite Ho, Hf, Hc, Hl.
  assert (Hjobsdir : os_path_join sge_dir "jobs" = os_path_join root_dir "sge/jobs")
    by (by apply (os_path_join_nested root_dir "sge" "jobs")).
  assert (Hout : os_path_join sge_dir "stdout" = os_path_join root_dir "sge/stdout")
    by (by apply (os_path_join_nested root_dir "sge" "stdout")).
  assert (Herr : os_path_join sge_dir "stderr" = os_path_join root_dir "sge/stderr")
    by (by apply (os_path_join_nested root_dir "sge" "stderr")).
  split; [done|]. split; [done|]. split; [done|]. split; [done|].
  split; [etrans; [|exact Hsub]; unfold base, mkdir; simpl; set_solver|].
  split; [apply Hsub; unfold base, mkdir; simpl; set_solver|].
  split; [apply Hsub; unfold base, mkdir; simpl; set_solver|].
  split; [rewrite <- Hjobsdir; apply Hsub; unfold base, mkdir; simpl; set_solver|].
  split; [rewrite <- Hout; apply Hsub; unfold base, mkdir; simpl; set_solver|].
  split; [rewrite <- Herr; apply Hsub; unfold base, mkdir; simpl; set_solver|].
  intros job Hjob Hidx.
  destruct (Hjobs job Hjob) as (H1 & H2 & H3).
  change (objects base) with (objects w) in H1, H2, H3.
  set (idx := index (objects w !!! job)) in *.
  rewrite Hjobsdir in H1.
  rewrite Hout in H2. rewrite Herr in H3.
  rewrite (os_path_join_nested root_dir "sge/stdout" idx) in H2 by done.
  rewrite (os_path_join_nested root_dir "sge/stderr" idx) in H3 by done.
  split; [exact H1|]. split; [exact H2|exact H3].
Qed.

Lemma build_directories_made_witness :
  "out/sge/jobs/3" ∈ dirs (build_directories "out" [3] (world_of diamond))
  ∧ "out/sge/stdout/3" ∈ dirs (build_directories "out" [3] (world_of diamond))
  ∧ "out/sge/stderr/3" ∈ dirs (build_directories "out" [3] (world_of diamond)).
Proof.
  destruct (build_directories_made "out" [3] (world_of diamond))
    as (_ & _ & _ & _ & _ & _ & _ & _ & _ & _ & Hjobs).
  apply (Hjobs 3); [left|reflexivity].
Defined.

(** The directory [build_job_scripts] opens a listed job's script in is
    among those [build_directories] has made: both functions compute it as
    the same string. *)
Lemma build_directories_script_dirs (root_dir : string) (jobs : list jobid)
    (w : World) (job : jobid) :
  job ∈ jobs →
  script_dir_of root_dir (objects (build_directories root_dir jobs w) !!! job)
  ∈ dirs (build_directories root_dir jobs w).
Proof.
  intros Hjob.
  destruct (build_directories_made root_dir jobs w) as (Hod & _).
  cbn zeta in Hod. rewrite Hod. unfold build_directories, script_dir_of.
  set (sge_dir := os_path_join root_dir "sge").
  set (base := mkdir _ (mkdir _ (mkdir _ (mkdir sge_dir (mkdir root_dir w))))).
  destruct (build_directories_fold (os_path_join sge_dir "jobs")
              (os_path_join sge_dir "stdout") (os_path_join sge_dir "stderr")
              jobs base) as (_ & _ & _ & _ & _ & Hjobs).
  cbn zeta in Hjobs.
  assert (Hjobsdir : os_path_join sge_dir "jobs" = os_path_join root_dir "sge/jobs")
    by (by apply (os_path_join_nested root_dir "sge" "jobs")).
  rewrite <- Hjobsdir. by destruct (Hjobs job Hjob) as [H1 _].
Qed.

(** ** Scripts written over each other *)

Lemma last_writer_snoc root_dir h jobs x p :
  last_writer root_dir h (jobs ++ [x]) p
  = if decide (script_path_of root_dir (h !!! x) = p) then Some x
    else last_writer root_dir h jobs p.
Proof.
  unfold last_writer. rewrite filter_app, filter_cons, filter_nil.
  destruct (decide (script_path_of root_dir (h !!! x) = p)).
  - by rewrite last_snoc.
  - by rewrite app_nil_r.
Qed.

Lemma last_writer_elem_of root_dir h jobs p job :
  last_writer root_dir h jobs p = Some job →
  job ∈ jobs ∧ script_path_of root_dir (h !!! job) = p.
Proof.
  unfold last_writer. intros Hlast.
  assert (job ∈ filter (fun job => script_path_of root_dir (h !!! job) = p) jobs)
    as Hin%list_elem_of_filter; [|by destruct Hin].
  destruct (filter _ jobs) as [|a l] using rev_ind; [done|].
  rewrite last_snoc in Hlast. injection Hlast as ->. set_solver.
Qed.

Lemma last_writer_is_Some root_dir h jobs job :
  job ∈ jobs →
  is_Some (last_writer root_dir h jobs (script_path_of root_dir (h !!! job))).
Proof.
  intros Hjob. unfold last_writer.
  assert (job ∈ filter (fun job' => script_path_of root_dir (h !!! job')
                                  = script_path_of root_dir (h !!! job)) jobs)
    as Hin by (by apply list_elem_of_filter).
  destruct (filter _ jobs) as [|a l] using rev_ind; [inversion Hin|].
  rewrite last_snoc. eauto.
Qed.

Lemma scripts_written_file_at root_dir jobs : ∀ w p,
  files (scripts_written root_dir jobs w) !! p
  = match last_writer root_dir (objects w) jobs p with
    | Some job => Some (script_text (objects w !!! job))
    | None => files w !! p
    end.
Proof.
  induction jobs as [|x l IH] using rev_ind; intros w p; [done|].
  rewrite scripts_written_snoc, last_writer_snoc.
  unfold script_written at 1. cbn [set_objects write_file files objects].
  destruct (same_but_scriptpath_path root_dir _ _
              (scripts_written_same root_dir l w x)) as [-> ->].
  destruct (decide (script_path_of root_dir (objects w !!! x) = p)) as [<-|Hne].
  - by rewrite lookup_insert_eq.
  - rewrite lookup_insert_ne by done. apply IH.
Qed.

Lemma scripts_written_world root_dir jobs : ∀ w,
  dirs (scripts_written root_dir jobs w) = dirs w
  ∧ qsub_calls (scripts_written root_dir jobs w) = qsub_calls w
  ∧ log (scripts_written root_dir jobs w) = log w.
Proof.
  unfold scripts_written. induction jobs as [|x l IH]; intros w; [done|].
  cbn [foldl]. by destruct (IH (script_written root_dir w x)) as (-> & -> & ->).
Qed.

Lemma scripts_written_other root_dir jobs : ∀ w j,
  j ∉ jobs → objects (scripts_written root_dir jobs w) !!! j = objects w !!! j.
Proof.
  unfold scripts_written. induction jobs as [|x l IH]; intros w j Hj; [done|].
  apply not_elem_of_cons in Hj as [Hne Hj]. cbn [foldl].
  rewrite IH by done. rewrite script_written_objects.
  by rewrite decide_False by done.
Qed.

Lemma scripts_written_listed root_dir jobs : ∀ w j,
  j ∈ jobs →
  objects (scripts_written root_dir jobs w) !!! j
  = set_scriptpath (script_path_of root_dir (objects w !!! j)) (objects w !!! j).
Proof.
  unfold scripts_written. induction jobs as [|x l IH]; intros w j Hj;
    [inversion Hj|].
  cbn [foldl]. destruct (decide (j ∈ l)) as [Hl|Hl].
  - rewrite IH by done. rewrite script_written_objects.
    by destruct (decide (x = j)) as [->|].
  - apply elem_of_cons in Hj as [->|Hj]; [|done].
    fold (scripts_written root_dir l (script_written root_dir w x)).
    rewrite scripts_written_other by done.
    rewrite script_written_objects. by rewrite decide_True.
Qed.

(** X11: when [build_job_scripts] returns, the file at a path holds the
    script text of the last listed job written there (so of two listed jobs
    with the same index and name the earlier one's script is lost), and a
    path no listed job is written to keeps what it held; a listed job's
    object differs from before in its script path only, the other objects,
    the directories, the commands and the log are untouched; and the
    directory of every listed job's script was there. *)
Theorem build_job_scripts_last_writer (root_dir : string) (jobs : list jobid)
    (w w' : World) :
  build_job_scripts root_dir jobs w = Returned w' →
  (∀ p, files w' !! p
        = match last_writer root_dir (objects w) jobs p with
          | Some job => Some (script_text (objects w !!! job))
          | None => files w !! p
          end)
  ∧ (∀ j, j ∈ jobs →
       objects w' !!! j
       = set_scriptpath (script_path_of root_dir (objects w !!! j))
                        (objects w !!! j))
  ∧ (∀ j, j ∉ jobs → objects w' !!! j = objects w !!! j)
  ∧ dirs w' = dirs w ∧ qsub_calls w' = qsub_calls w ∧ log w' = log w
  ∧ ∀ j, j ∈ jobs →
      os_path_join (os_path_join root_dir "sge/jobs") (index (objects w !!! j))
      ∈ dirs w.
Proof.
  intros [-> Hdirs]%build_job_scripts_returned.
  split; [apply scripts_written_file_at|].
  split; [intros j Hj; by apply scripts_written_listed|].
  split; [intros j Hj; by apply scripts_written_other|].
  destruct (scripts_written_world root_dir jobs w) as (-> & -> & ->).
  repeat (split; [done|]). exact Hdirs.
Qed.

Lemma build_job_scripts_last_writer_witness :
  ∃ w',
    build_job_scripts "out" [0; 1] (build_directories "out" [0; 1] (world_of twins))
    = Returned w'
    ∧ files w' !! "out/sge/jobs/0/J"
      = Some ("#!/bin/sh" +:+ nl +:+ "#$ -S /bin/bash" +:+ nl +:+ "second" +:+ nl)
    ∧ scriptpath (objects w' !!! 0) = Some "out/sge/jobs/0/J"
    ∧ objects w' !!! 7 = twins !!! 7.
Proof.
  destruct (build_job_scripts "out" [0; 1]
              (build_directories "out" [0; 1] (world_of twins)))
    as [w'| |] eqn:Hrun; [|by vm_compute in Hrun..].
  exists w'. split; [done|].
  destruct (build_job_scripts_last_writer "out" [0; 1] _ w' Hrun)
    as (Hfile & Hlisted & Hother & _).
  split; [by rewrite Hfile|]. split.
  - etrans; [exact (f_equal scriptpath (Hlisted 0 ltac:(left)))|reflexivity].
  - etrans; [apply (Hother 7)|reflexivity].
    intros Hin. repeat (apply elem_of_cons in Hin as [Hin|Hin]; [done|]).
    inversion Hin.
Defined.

(** ** [build_and_submit_jobs]: scripts, then submissions *)

Lemma spec_invocation_scripted QSUB root_dir (h0 h : heap) job extra p :
  (∀ j, same_but_scriptpath (h0 !!! j) (h !!! j)) →
  scriptpath (h0 !!! job) = Some p →
  spec_invocation QSUB root_dir h0 job (Some extra)
  = spec_invocation QSUB root_dir h job None +:+ " " +:+ extra +:+ " " +:+ p.
Proof.
  intros Hsame Hp.
  unfold spec_invocation, task_range, hold_directive, extra_arguments.
  destruct (Hsame job) as (-> & _ & -> & _ & -> & _ & _ & _ & ->).
  rewrite Hp. cbn [str_of].
  assert (Hn : ∀ ds : list jobid,
             ((fun d => name (h0 !!! d)) <$> ds) = ((fun d => name (h !!! d)) <$> ds)).
  { intros ds. apply list_fmap_ext. intros _ d _. apply Hsame. }
  destruct (dependencies (h !!! job)) as [|d ds];
    [|rewrite Hn]; by rewrite !str_app_assoc, ?str_app_nil_r.
Qed.

(** X12: a run of [build_and_submit_jobs] with extra arguments that
    returns has issued, for the listed jobs wave after wave, the invocation
    followed by the extra arguments and the path of the job's script; every
    listed job then carries that path, shows [submitted], and the file at
    the path holds the script text of a listed job written there. *)
Theorem build_and_submit_jobs_scripts (QSUB : string) (st : World → string → Z)
    (rounds : nat) (root_dir : string) (jobs : list jobid) (extra : string)
    (w w' : World) (waves : list (list jobid)) :
  build_and_submit_jobs QSUB st rounds root_dir (inl jobs) (Some extra) w
  = Returned (w', waves) →
  jobs ≡ₚ concat waves
  ∧ qsub_calls w'
    = qsub_calls w
      ++ ((fun job =>
             spec_invocation QSUB root_dir (objects w) job None
               +:+ " " +:+ extra +:+ " "
               +:+ script_path_of root_dir (objects w !!! job)) <$> concat waves)
  ∧ ∀ job, job ∈ jobs →
      scriptpath (objects w' !!! job)
      = Some (script_path_of root_dir (objects w !!! job))
      ∧ submitted (objects w' !!! job) = true
      ∧ ∃ job', job' ∈ jobs
                ∧ script_path_of root_dir (objects w !!! job')
                  = script_path_of root_dir (objects w !!! job)
                ∧ files w' !! script_path_of root_dir (objects w !!! job)
                  = Some (script_text (objects w !!! job')).
Proof.
  unfold build_and_submit_jobs, submit_jobs. intros Hrun.
  set (wd := build_directories root_dir jobs w) in *.
  destruct (build_job_scripts root_dir jobs wd) as [w0| |] eqn:Hscripts;
    [|done..].
  apply build_job_scripts_returned in Hscripts as [Hw0 _].
  cbn [mbind outcome_bind] in Hrun.
  destruct (build_directories_made root_dir jobs w)
    as (Hod & Hfd & Hcd & _). fold wd in Hod, Hfd, Hcd.
  destruct (scripts_written_world root_dir jobs wd) as (_ & Hc0 & _).
  rewrite <- Hw0 in Hc0.
  assert (Hsame : ∀ j, same_but_scriptpath (objects w0 !!! j) (objects w !!! j)).
  { intros j. rewrite Hw0, <- Hod. apply scripts_written_same. }
  assert (Hpath : ∀ job, job ∈ jobs →
            scriptpath (objects w0 !!! job)
            = Some (script_path_of root_dir (objects w !!! job))).
  { intros job Hjob. rewrite Hw0, <- Hod.
    by apply scripts_written_scriptpath. }
  destruct (submit_jobs_loop_run QSUB st root_dir (Some extra) rounds jobs w0)
    as [Hun|(w2 & waves2 & Hret & Hperm & Hf & _ & _ & Hcalls & Hstat & Hsub & _)];
    [congruence|].
  rewrite Hret in Hrun. injection Hrun as <- <-.
  split; [done|]. split; [|intros job Hjob; split; [|split]].
  - rewrite Hcalls, Hc0, Hcd. f_equal. apply list_fmap_ext.
    intros i job Hjob%list_elem_of_lookup_2.
    apply spec_invocation_scripted; [done|].
    apply Hpath. by rewrite Hperm.
  - destruct (Hstat job) as (_ & _ & _ & _ & _ & -> & _). by apply Hpath.
  - apply Hsub. by left.
  - rewrite Hf, Hw0. rewrite scripts_written_file_at, Hod.
    destruct (last_writer_is_Some root_dir (objects w) jobs job Hjob)
      as [job' Hlast].
    rewrite Hlast. apply last_writer_elem_of in Hlast as [Hin Hp]. eauto.
Qed.

Lemma build_and_submit_jobs_scripts_witness :
  ∃ w' waves,
    build_and_submit_jobs "qsub" (fun _ _ => 0%Z) 3 "out" (inl [3; 2; 1; 0])
                          (Some "-q all") (world_of diamond)
    = Returned (w', waves)
    ∧ scriptpath (objects w' !!! 3) = Some "out/sge/jobs/3/D"
    ∧ submitted (objects w' !!! 3) = true.
Proof.
  destruct (build_and_submit_jobs "qsub" (fun _ _ => 0%Z) 3 "out"
              (inl [3; 2; 1; 0]) (Some "-q all") (world_of diamond))
    as [[w' waves]| |] eqn:Hrun; [|by vm_compute in Hrun..].
  exists w', waves. split; [done|].
  destruct (build_and_submit_jobs_scripts _ _ _ _ _ _ _ _ _ Hrun)
    as (_ & _ & Hjobs).
  destruct (Hjobs 3) as (Hp & Hs & _); [left|].
  split; [exact Hp|exact Hs].
Defined.

(** ** [run_dependency_graph] on a graph with dependencies *)

Lemma total_deps_zero (h : heap) joblist :
  total_deps h joblist = 0 ↔ ∀ j, j ∈ joblist → deps h j = [].
Proof.
  unfold total_deps. induction joblist as [|x l IH]; csimpl.
  - split; [|done]. intros _ j Hj. inversion Hj.
  - split.
    + intros Hsum j [->|Hj]%elem_of_cons.
      * apply nil_length_inv. lia.
      * apply IH; [lia|done].
    + intros Hall. rewrite (Hall x) by left. simpl. apply IH.
      intros j Hj. apply Hall. by right.
Qed.

Lemma info_Some lg line w : info (Some lg) line w = Returned (logger_info line w).
Proof. done. Qed.

Lemma for_each_info_returns lg (l : list jobid) : ∀ w,
  ∃ w2,
    for_each (fun job w => info (Some lg) (tab +:+ name (objects w !!! job)) w) l w
    = Returned w2
    ∧ objects w2 = objects w ∧ files w2 = files w ∧ dirs w2 = dirs w
    ∧ qsub_calls w2 = qsub_calls w.
Proof.
  induction l as [|x l IH]; intros w; [by exists w|].
  destruct (IH (logger_info (tab +:+ name (objects w !!! x)) w))
    as (w2 & Heq & Ho & Hf & Hd & Hc).
  exists w2. split; [exact Heq|done].
Qed.

Lemma reachable_closed (h : heap) roots (joblist : list jobid) :
  (∀ j, j ∈ joblist ↔ reachable h roots j) → closed h joblist.
Proof.
  intros Hmem j d Hj Hd. apply Hmem. apply Hmem in Hj as (r & Hr & Hrj).
  exists r. split; [done|]. by eapply rtc_r.
Qed.

Lemma reachable_acyclic (h : heap) roots (joblist : list jobid) :
  (∀ j, j ∈ joblist ↔ reachable h roots j) →
  acyclic_from h roots → acyclic_from h joblist.
Proof.
  intros Hmem Hacy j (x & Hx & Hxj). apply Hacy.
  apply Hmem in Hx as (r & Hr & Hrx). exists r. split; [done|]. by etrans.
Qed.

Section EndToEnd.

Variable QSUB : string.
Variable st : World → string → Z.
Variable jobdir : string.
Variable sgeargs : option string.

(** The submission of a list that is ready to go: the scripts are
    written, then the loop runs wave by wave; [m] bounds the number of jobs
    on a dependency chain. *)
Lemma build_and_submit_flattened (h : heap) (joblist : list jobid) (w : World)
    (m : nat) :
  objects w = h →
  NoDup joblist → closed h joblist →
  (∀ j, j ∈ joblist → ht_le h j m) →
  (∀ j, j ∈ joblist → submitted (h !!! j) = false) →
  ∃ w' waves,
    (∀ rounds, m ≤ rounds →
       build_and_submit_jobs QSUB st rounds jobdir (inl joblist) sgeargs w
       = Returned (w', waves))
    ∧ (∀ j, j ∈ joblist → submitted (objects w' !!! j) = true)
    ∧ joblist ≡ₚ concat waves
    ∧ graph_depth h joblist (length waves)
    ∧ (∀ j, j ∉ joblist → objects w' !!! j = h !!! j)
    ∧ (∀ j, static_eq (objects w' !!! j)
                      (objects (scripts_written jobdir joblist w) !!! j))
    ∧ length (qsub_calls w') = length (qsub_calls w) + length joblist.
Proof.
  intros Hw Hnd Hclosed Hbound Hunsub.
  set (wd := build_directories jobdir joblist w).
  set (w0 := scripts_written jobdir joblist wd).
  assert (Hscripts : build_job_scripts jobdir joblist wd = Returned w0).
  { apply build_job_scripts_returns. intros job Hjob.
    by apply build_directories_script_dirs. }
  destruct (build_directories_made jobdir joblist w) as (Hod & _ & Hcd & _).
  fold wd in Hod, Hcd.
  assert (Hsame : ∀ j, same_but_scriptpath (objects w0 !!! j) (h !!! j)).
  { intros j. unfold w0. rewrite <- Hw, <- Hod. apply scripts_written_same. }
  destruct (wave_inv_loop QSUB st jobdir sgeargs h joblist Hclosed
              m 0 joblist w0)
    as (w' & waves & Hrun & Hsub & Hle & Hlast & Hperm).
  { constructor; [done| | |].
    - intros j. split; [|naive_solver]. intros Hj. split; [done|].
      exists []. split; [constructor|simpl; lia].
    - intros j. unfold deps. by destruct (Hsame j) as (_ & _ & _ & _ & -> & _).
    - intros j Hj. destruct (Hsame j) as (_ & _ & _ & _ & _ & -> & _).
      rewrite (Hunsub j Hj). split; [done|].
      intros Hle. by apply ht_le_0 in Hle. }
  { done. }
  exists w', waves.
  split; [|split; [done|split; [done|split; [|]]]].
  - intros rounds Hrounds. unfold build_and_submit_jobs, submit_jobs.
    fold wd. rewrite Hscripts. cbn [mbind outcome_bind]. by apply Hrun.
  - simpl in *. split.
    + intros c (Hc & j & Hhd & Hj). destruct c as [|a c]; [done|].
      injection Hhd as ->. by apply Hle.
    + destruct Hlast as [[-> ->]|(j & Hj & (c & Hc & Hgt) & Hne)]; [by left|].
      right. exists (j :: c). split.
      * split; [done|]. by exists j.
      * specialize (Hle j Hj c Hc). destruct waves; [done|]. simpl in *. lia.
  - destruct (submit_jobs_loop_run QSUB st jobdir sgeargs m joblist w0)
      as [Hun|(w2 & waves2 & Hret & Hperm2 & _ & _ & _ & Hcalls & Hstat & _ & Hother)];
      [by rewrite Hrun in Hun|].
    rewrite Hrun in Hret by done. injection Hret as <- <-.
    split; [|split].
    + intros j Hj. rewrite Hother by done. unfold w0.
      rewrite scripts_written_other by done. by rewrite Hod, Hw.
    + intros j. assert (objects w0 = objects (scripts_written jobdir joblist w))
        as <-; [|apply Hstat].
      unfold w0. apply map_eq. intros i.
      assert (Hobj : ∀ l (wa wb : World), objects wa = objects wb →
                objects (scripts_written jobdir l wa)
                = objects (scripts_written jobdir l wb)).
      { unfold scripts_written. induction l as [|x l IH]; intros wa wb Hab;
          [done|]. cbn [foldl]. apply IH. unfold script_written.
        cbn [set_objects write_file objects]. by rewrite Hab. }
      by rewrite (Hobj joblist wd w Hod).
    + rewrite Hcalls, length_app, length_fmap, <- Hperm.
      destruct (scripts_written_world jobdir joblist wd) as (_ & Hc0 & _).
      fold w0 in Hc0. by rewrite Hc0, Hcd.
Qed.

End EndToEnd.

(** X13: given a logger and a store in which the jobs below the roots are
    acyclic, not yet submitted and at least one of them has a dependency,
    [run_dependency_graph] returns (for a recursion limit and a number of
    loop iterations that are large enough); the jobs handed to submission
    are the reachable jobs themselves, each once and ungrouped; all of them
    end up submitted, each in one wave, and the number of waves is the
    depth of the graph. *)
Theorem run_dependency_graph_waves (QSUB : string) (st : World → string → Z)
    (jobdir : string) (jobgraph : list jobid) (lg : Logger)
    (jgprefix : string) (sgegroupsize : Z) (sgeargs : option string)
    (w : World) :
  acyclic_from (objects w) jobgraph →
  (∀ j, reachable (objects w) jobgraph j → submitted (objects w !!! j) = false) →
  (∃ j, reachable (objects w) jobgraph j ∧ deps (objects w) j ≠ []) →
  ∃ n joblist w' waves,
    (∀ limit rounds, n ≤ limit → n ≤ rounds →
       run_dependency_graph QSUB st limit rounds jobdir jobgraph (Some lg)
                            jgprefix sgegroupsize sgeargs w
       = Returned (joblist, w', waves))
    ∧ NoDup joblist
    ∧ (∀ j, j ∈ joblist ↔ reachable (objects w) jobgraph j)
    ∧ joblist ≡ₚ concat waves
    ∧ (∀ j, j ∈ joblist → submitted (objects w' !!! j) = true)
    ∧ graph_depth (objects w) joblist (length waves).
Proof.
  intros Hacy Hunsub (j0 & Hj0 & Hdeps0).
  destruct (build_joblist_reachable (objects w) jobgraph Hacy)
    as (n1 & s & Hs & Hn1).
  set (joblist := elements s).
  assert (Hmem : ∀ j, j ∈ joblist ↔ reachable (objects w) jobgraph j).
  { intros j. unfold joblist. by rewrite elem_of_elements. }
  assert (Hcount : (total_deps (objects w) joblist =? 0)%nat = false).
  { apply Nat.eqb_neq. intros Hz. apply Hdeps0.
    apply (proj1 (total_deps_zero _ _) Hz). by apply Hmem. }
  destruct (report_jobs_count joblist w) as [Hdc Hobj].
  destruct (report_jobs joblist w) as [dc w1] eqn:Hrep. cbn [fst snd] in Hdc, Hobj.
  set (w2 := logger_info "Jobs passed to scheduler in order:"
               (logger_info "Running jobs with scheduler..."
                  (logger_info ("There are " +:+ pretty dc +:+ " job dependencies") w1))).
  destruct (for_each_info_returns lg joblist w2) as (w3 & Hw3 & Ho3 & _).
  destruct (build_and_submit_flattened QSUB st jobdir sgeargs (objects w) joblist w3
              (length joblist))
    as (w4 & waves & Hrun & Hsub & Hperm & Hdepth & _).
  { by rewrite Ho3. }
  { apply NoDup_elements. }
  { by eapply reachable_closed. }
  { apply closed_acyclic_bound; [by eapply reachable_closed|].
    by eapply reachable_acyclic. }
  { intros j Hj. by apply Hunsub, Hmem. }
  exists (n1 `max` length joblist), joblist,
    (logger_info "Waiting for SGE-submitted jobs to finish (polling)" w4), waves.
  split; [|split; [apply NoDup_elements|split; [done|split; [done|split; [|done]]]]].
  - intros limit rounds Hlimit Hrounds. unfold run_dependency_graph.
    rewrite Hn1 by lia. cbn [mbind outcome_bind]. fold joblist. rewrite Hrep.
    rewrite info_Some. cbn [mbind outcome_bind]. subst dc. rewrite Hcount.
    cbn [mbind outcome_bind]. rewrite info_Some. cbn [mbind outcome_bind].
    rewrite info_Some. cbn [mbind outcome_bind].
    fold w2. rewrite Hw3. cbn [mbind outcome_bind].
    rewrite Hrun by lia. cbn [mbind outcome_bind]. rewrite info_Some.
    cbn [mbind outcome_bind]. by rewrite for_each_Job_wait.
  - intros j Hj. cbn [logger_info objects]. by apply Hsub.
Qed.

Lemma run_dependency_graph_waves_witness :
  ∃ n joblist w' waves,
    (∀ limit rounds, n ≤ limit → n ≤ rounds →
       run_dependency_graph "qsub" (fun _ _ => 0%Z) limit rounds "out" [3]
                            (Some logging_Logger) "ANIm_SGE_JG" 10000 None
                            (world_of diamond)
       = Returned (joblist, w', waves))
    ∧ NoDup joblist
    ∧ (∀ j, j ∈ joblist ↔ reachable diamond [3] j)
    ∧ joblist ≡ₚ concat waves
    ∧ (∀ j, j ∈ joblist → submitted (objects w' !!! j) = true)
    ∧ graph_depth diamond joblist (length waves).
Proof.
  apply (run_dependency_graph_waves "qsub" (fun _ _ => 0%Z) "out" [3]
           logging_Logger "ANIm_SGE_JG" 10000 None (world_of diamond)).
  - apply diamond_acyclic.
  - intros j (r & ->%list_elem_of_singleton & Hrj).
    assert (j ≤ 3).
    { clear -Hrj. induction Hrj as [|a b c Hab _ IH]; [done|].
      apply diamond_ranked in Hab. lia. }
    destruct j as [|[|[|[|j]]]]; [by vm_compute..|lia].
  - exists 3. split; [exists 3; split; [left|done]|]. by vm_compute.
Defined.

(** ** [run_dependency_graph] on a graph without dependencies *)

Lemma alloc_jobs_fold (js : list Job) : ∀ (h : heap) (acc : list jobid),
  ∃ (h' : heap) (new : list jobid),
    foldl (fun '(h, ids) j =>
             let i := fresh (dom h) in (<[i := j]> h, ids ++ [i]))
          (h, acc) js = (h', acc ++ new)
    ∧ length new = length js ∧ NoDup new
    ∧ (∀ i, i ∈ new → i ∉ dom h)
    ∧ (∀ j, j ∈ dom h → h' !! j = h !! j)
    ∧ (∀ k i, new !! k = Some i → h' !! i = js !! k).
Proof.
  induction js as [|J js IH]; intros h acc.
  - exists h, []. rewrite app_nil_r. repeat split; try done; [constructor|].
    intros i Hi. inversion Hi.
  - set (i0 := fresh (dom h)).
    assert (Hfresh : i0 ∉ dom h) by apply is_fresh.
    destruct (IH (<[i0 := J]> h) (acc ++ [i0]))
      as (h' & new & Heq & Hlen & Hnd & Hnew & Hold & Hlook).
    exists h', (i0 :: new). rewrite <- app_assoc in Heq.
    split; [exact Heq|]. split; [simpl; lia|].
    assert (Hi0 : i0 ∈ dom (<[i0 := J]> h)) by (rewrite dom_insert; set_solver).
    split; [|split; [|split]].
    + apply NoDup_cons. split; [|done]. intros Hin. by apply Hnew in Hin.
    + intros i [->|Hi]%elem_of_cons; [done|].
      apply Hnew in Hi. rewrite dom_insert in Hi. set_solver.
    + intros j Hj. rewrite Hold by (rewrite dom_insert; set_solver).
      apply lookup_insert_ne. intros ->. done.
    + intros k i Hk. destruct k as [|k]; simpl in Hk.
      * injection Hk as <-. rewrite Hold by done. apply lookup_insert_eq.
      * by apply Hlook.
Qed.

Lemma alloc_jobs_spec (h : heap) (js : list Job) :
  ∃ (h' : heap) (ids : list jobid),
    alloc_jobs h js = (h', ids)
    ∧ length ids = length js ∧ NoDup ids
    ∧ (∀ i, i ∈ ids → i ∉ dom h)
    ∧ (∀ j, j ∈ dom h → h' !! j = h !! j)
    ∧ (∀ k i, ids !! k = Some i → h' !! i = js !! k).
Proof.
  destruct (alloc_jobs_fold js h []) as (h' & new & Heq & Hrest).
  exists h', new. split; [exact Heq|exact Hrest].
Qed.

Lemma compile_jobgroups_plain joblist jgprefix G :
  (0 ≤ G ≤ sys_maxsize)%Z →
  ∃ groups,
    compile_jobgroups_from_joblist joblist jgprefix G = Returned groups
    ∧ ∀ g, g ∈ groups →
        dependencies g = [] ∧ submitted g = false ∧ script g = command g.
Proof.
  intros HG. unfold compile_jobgroups_from_joblist.
  rewrite split_seq_in_range by lia. cbn [mbind outcome_bind].
  eexists. split; [done|]. rewrite compile_sublists_imap.
  intros g Hg. cbn [app] in Hg.
  apply elem_of_lookup_imap in Hg as (i & chunk & -> & _). done.
Qed.

Lemma build_joblist_flat_set limit (h : heap) (roots : list jobid) :
  1 ≤ limit → (∀ r, r ∈ roots → deps h r = []) →
  build_joblist limit h roots = Returned (elements (list_to_set roots : gset jobid)).
Proof.
  intros Hlimit Hflat. unfold build_joblist.
  destruct (for_each_populate_returns limit h 1 roots) with (s := (∅ : gset jobid))
    as (s & -> & Hm).
  { intros y Hy s0. apply populate_jobset_limit.
    apply ht_le_mono with 1; [|done]. apply ht_le_S. intros d Hd.
    unfold depends_on in Hd. rewrite (Hflat y Hy) in Hd. inversion Hd. }
  cbn [mbind outcome_bind]. do 2 f_equal. apply set_eq. intros j.
  rewrite Hm, elem_of_list_to_set. split.
  - intros [Hin|(y & Hy & Hyj)]; [set_solver|].
    by rewrite (rtc_no_deps h y j (Hflat y Hy) Hyj).
  - intros Hj. right. by exists j.
Qed.

Lemma log_deps_calls (ds : list jobid) : ∀ w,
  qsub_calls (foldl (fun w dep =>
                       logger_info (tab +:+ "[^ depends on: " +:+
                                    name (objects w !!! dep) +:+ "]") w) w ds)
  = qsub_calls w.
Proof. induction ds as [|d ds IH]; intros w; simpl; [done|]. by rewrite IH. Qed.

Lemma log_deps_files (ds : list jobid) : ∀ w,
  files (foldl (fun w dep =>
                  logger_info (tab +:+ "[^ depends on: " +:+
                               name (objects w !!! dep) +:+ "]") w) w ds)
  = files w.
Proof. induction ds as [|d ds IH]; intros w; simpl; [done|]. by rewrite IH. Qed.

Lemma report_jobs_files joblist w :
  files (report_jobs joblist w).2 = files w.
Proof.
  unfold report_jobs.
  set (step := fun '(dep_count, w) job => _).
  assert (H : ∀ l dc (w0 : World),
             files (foldl step (dc, w0) l).2 = files w0).
  { induction l as [|x l IH]; intros dc w0; [done|].
    cbn [foldl]. unfold step at 2.
    destruct (length (dependencies (objects w0 !!! x)) =? 0)%nat.
    - by rewrite IH.
    - rewrite IH. by rewrite log_deps_files. }
  by rewrite H.
Qed.

Lemma report_jobs_calls joblist w :
  qsub_calls (report_jobs joblist w).2 = qsub_calls w.
Proof.
  unfold report_jobs.
  set (step := fun '(dep_count, w) job => _).
  assert (H : ∀ l dc (w0 : World),
             qsub_calls (foldl step (dc, w0) l).2 = qsub_calls w0).
  { induction l as [|x l IH]; intros dc w0; [done|].
    cbn [foldl]. unfold step at 2.
    destruct (length (dependencies (objects w0 !!! x)) =? 0)%nat.
    - by rewrite IH.
    - rewrite IH. by rewrite log_deps_calls. }
  by rewrite H.
Qed.

Lemma split_seq_zero (A : Type) (iterable : list A) :
  split_seq iterable 0 = Returned [].
Proof. unfold split_seq. simpl. by destruct iterable. Qed.

Lemma split_seq_out_of_range (A : Type) (iterable : list A) (size : Z) :
  (size < 0 ∨ sys_maxsize < size)%Z → split_seq iterable size = Raised ValueError.
Proof.
  intros Hsize. unfold split_seq.
  destruct (size <? 0)%Z eqn:Hneg; [done|].
  destruct (sys_maxsize <? size)%Z eqn:Hbig; [done|lia].
Qed.

Lemma submit_jobs_loop_nil QSUB st rounds root_dir sgeargs w waves :
  submit_jobs_loop QSUB st rounds root_dir sgeargs [] w waves = Returned (w, waves).
Proof. by destruct rounds. Qed.

(** X14: given a logger and roots none of which has a dependency, the
    group compiler is called on the flattened jobs.  With the group size 0
    it yields nothing, and [run_dependency_graph] returns having handed an
    empty list to submission: no command is issued, no file written and
    every object is as it was, so the jobs are dropped without an error.
    With a negative group size, or one above [sys.maxsize], the run ends in
    the [ValueError] of [itertools.islice]. *)
Theorem run_dependency_graph_degenerate_size (QSUB : string)
    (st : World → string → Z) (limit rounds : nat) (jobdir : string)
    (jobgraph : list jobid) (lg : Logger) (jgprefix : string) (G : Z)
    (sgeargs : option string) (w : World) :
  1 ≤ limit →
  (∀ r, r ∈ jobgraph → deps (objects w) r = []) →
  (∃ w',
     run_dependency_graph QSUB st limit rounds jobdir jobgraph (Some lg)
                          jgprefix 0 sgeargs w
     = Returned ([], w', [])
     ∧ objects w' = objects w ∧ files w' = files w
     ∧ qsub_calls w' = qsub_calls w)
  ∧ ((G < 0 ∨ sys_maxsize < G)%Z →
     run_dependency_graph QSUB st limit rounds jobdir jobgraph (Some lg)
                          jgprefix G sgeargs w
     = Raised ValueError).
Proof.
  intros Hlimit Hroots.
  set (joblist := elements (list_to_set jobgraph : gset jobid)).
  assert (Hmem : ∀ j, j ∈ joblist ↔ j ∈ jobgraph).
  { intros j. unfold joblist. by rewrite elem_of_elements, elem_of_list_to_set. }
  assert (Hcount : (total_deps (objects w) joblist =? 0)%nat = true).
  { apply Nat.eqb_eq, total_deps_zero. intros j Hj. by apply Hroots, Hmem. }
  destruct (report_jobs_count joblist w) as [Hdc Hobj].
  pose proof (report_jobs_calls joblist w) as Hcalls1.
  pose proof (report_jobs_files joblist w) as Hfiles1.
  destruct (report_jobs joblist w) as [dc w1] eqn:Hrep.
  cbn [fst snd] in Hdc, Hobj, Hcalls1, Hfiles1.
  split.
  - set (w2 := logger_info "Jobs passed to scheduler in order:"
                 (logger_info "Running jobs with scheduler..."
                    (set_objects (objects w1)
                       (logger_info "Compiling jobs into JobGroups"
                          (logger_info ("There are " +:+ pretty dc
                                        +:+ " job dependencies") w1))))).
    exists (logger_info "Waiting for SGE-submitted jobs to finish (polling)"
              (build_directories jobdir [] w2)).
    split.
    + unfold run_dependency_graph.
      rewrite build_joblist_flat_set by done.
      cbn [mbind outcome_bind]. fold joblist. rewrite Hrep.
      rewrite info_Some. cbn [mbind outcome_bind]. subst dc. rewrite Hcount.
      rewrite info_Some. cbn [mbind outcome_bind].
      unfold compile_jobgroups_from_joblist_with. rewrite split_seq_zero.
      cbn [mbind outcome_bind compile_sublists_with alloc_jobs foldl].
      rewrite info_Some. cbn [mbind outcome_bind].
      rewrite info_Some. cbn [mbind outcome_bind for_each logger_info objects].
      unfold build_and_submit_jobs, build_job_scripts, submit_jobs.
      cbn [for_each mbind outcome_bind].
      rewrite submit_jobs_loop_nil. cbn [mbind outcome_bind].
      by rewrite info_Some.
    + destruct (build_directories_made jobdir [] w2) as (Ho & Hf & Hc & _).
      cbn zeta in Ho, Hf, Hc. cbn [logger_info objects files qsub_calls].
      rewrite Ho, Hf, Hc. unfold w2.
      cbn [logger_info set_objects objects files qsub_calls]. done.
  - intros HG. unfold run_dependency_graph.
    rewrite build_joblist_flat_set by done.
    cbn [mbind outcome_bind]. fold joblist. rewrite Hrep.
    rewrite info_Some. cbn [mbind outcome_bind]. subst dc. rewrite Hcount.
    rewrite info_Some. cbn [mbind outcome_bind].
    unfold compile_jobgroups_from_joblist_with.
    by rewrite split_seq_out_of_range.
Qed.

Lemma run_dependency_graph_degenerate_size_witness :
  (∃ w',
     run_dependency_graph "qsub" (fun _ _ => 0%Z) 1 1 "out" [0]
                          (Some logging_Logger) "JG" 0 None (world_of diamond)
     = Returned ([], w', [])
     ∧ objects w' = objects (world_of diamond)
     ∧ files w' = files (world_of diamond)
     ∧ qsub_calls w' = qsub_calls (world_of diamond))
  ∧ run_dependency_graph "qsub" (fun _ _ => 0%Z) 1 1 "out" [0]
                         (Some logging_Logger) "JG" (-1) None (world_of diamond)
    = Raised ValueError.
Proof.
  destruct (run_dependency_graph_degenerate_size "qsub" (fun _ _ => 0%Z) 1 1
              "out" [0] logging_Logger "JG" (-1) None (world_of diamond))
    as [Hzero Hneg].
  - lia.
  - by intros r ->%list_elem_of_singleton.
  - split; [exact Hzero|]. apply Hneg. lia.
Defined.

(** ** The compiled jobs do not collide *)

Lemma startswith_sep_prefix (p x y : string) :
  startswith_sep (p +:+ "_" +:+ x) = startswith_sep (p +:+ "_" +:+ y).
Proof. by destruct p. Qed.

Lemma os_path_join_inj d (n1 n2 : string) :
  startswith_sep n1 = startswith_sep n2 →
  os_path_join d n1 = os_path_join d n2 → n1 = n2.
Proof.
  intros Hsame. unfold os_path_join. rewrite Hsame.
  destruct (startswith_sep n2); [done|].
  destruct (bool_decide (d = "") || endswith_sep d).
  - apply String.app_inj.
  - rewrite <- !str_app_assoc. apply String.app_inj.
Qed.

Lemma compile_jobgroups_lookup joblist jgprefix G groups i g :
  compile_jobgroups_from_joblist joblist jgprefix G = Returned groups →
  groups !! i = Some g →
  ∃ chunk, g = group_job jgprefix (S i) chunk.
Proof.
  unfold compile_jobgroups_from_joblist.
  destruct (split_seq joblist G) as [chunks| |] eqn:Hsplit; [|done..].
  apply split_seq_returned in Hsplit as ->. cbn [mbind outcome_bind].
  rewrite compile_sublists_imap. intros [= <-]. cbn [app].
  rewrite list_lookup_imap. intros Hi.
  destruct (split_seq_from _ joblist _ !! i) as [chunk|]; [|done].
  simpl in Hi. injection Hi as <-. eauto.
Qed.

(** X15: the jobs [compile_jobgroups_from_joblist] returns have pairwise
    different names and, under any root directory, pairwise different
    script paths, so [build_job_scripts] never writes one compiled job's
    script over another's; all of them have the index ["0"], so they all
    share one directory for their scripts, one for output and one for
    errors. *)
Theorem compile_jobgroups_distinct (joblist : list string) (jgprefix : string)
    (G : Z) (root_dir : string) (groups : list Job) :
  compile_jobgroups_from_joblist joblist jgprefix G = Returned groups →
  (∀ i j gi gj, groups !! i = Some gi → groups !! j = Some gj →
     name gi = name gj → i = j)
  ∧ (∀ i j gi gj, groups !! i = Some gi → groups !! j = Some gj →
       script_path_of root_dir gi = script_path_of root_dir gj → i = j)
  ∧ (∀ g, g ∈ groups → index g = "0").
Proof.
  intros Hrun.
  assert (Hname : ∀ i j gi gj, groups !! i = Some gi → groups !! j = Some gj →
            name gi = name gj → i = j).
  { intros i j gi gj Hi Hj Heq.
    destruct (compile_jobgroups_lookup _ _ _ _ _ _ Hrun Hi) as [ci ->].
    destruct (compile_jobgroups_lookup _ _ _ _ _ _ Hrun Hj) as [cj ->].
    cbn [group_job Job_init name] in Heq.
    apply String.app_inj, String.app_inj, pretty_nat_inj in Heq. lia. }
  split; [done|]. split.
  - intros i j gi gj Hi Hj Heq. apply (Hname i j gi gj Hi Hj).
    destruct (compile_jobgroups_lookup _ _ _ _ _ _ Hrun Hi) as [ci ->].
    destruct (compile_jobgroups_lookup _ _ _ _ _ _ Hrun Hj) as [cj ->].
    unfold script_path_of in Heq. cbn [group_job Job_init name index] in *.
    eapply os_path_join_inj; [|exact Heq]. apply startswith_sep_prefix.
  - intros g [i Hi]%list_elem_of_lookup_1.
    by destruct (compile_jobgroups_lookup _ _ _ _ _ _ Hrun Hi) as [ci ->].
Qed.

Lemma compile_jobgroups_distinct_witness :
  ∃ groups,
    compile_jobgroups_from_joblist ["a"; "b"; "c"] "JG" 2 = Returned groups
    ∧ (∀ i j gi gj, groups !! i = Some gi → groups !! j = Some gj →
         name gi = name gj → i = j)
    ∧ (∀ i j gi gj, groups !! i = Some gi → groups !! j = Some gj →
         script_path_of "out" gi = script_path_of "out" gj → i = j)
    ∧ (∀ g, g ∈ groups → index g = "0").
Proof.
  destruct (compile_jobgroups_from_joblist ["a"; "b"; "c"] "JG" 2)
    as [groups| |] eqn:Hrun; [|by vm_compute in Hrun..].
  exists groups. split; [done|].
  apply (compile_jobgroups_distinct _ _ _ "out" _ Hrun).
Defined.
